(** * An LRU cache with per-entry TTL, a backing store and a listener

    Shallow embedding of [cache/cache.go] (package [cache]) and of the
    parts of its test file that the properties below refer to.

    - [time.Time] and [time.Duration] are integer nanosecond counts; the
      difference of two instants saturates at the bounds of a 64-bit
      [Duration], as [Time.Sub] does.
    - The Go map [cache : map[K]*list.Element] and the list [order] share
      their elements.  An element is named here by the key of the
      [CacheItem] it carries: [cache] holds each item once, [order] lists
      the elements from front (most recently used) to back.  A write to an
      item through the map is therefore seen through the list, as in the
      source; the element that a lookup [c.cache[key]] returns is the one
      named [key item], for the item found.
    - The methods run one at a time, each to its end: the properties are
      about sequential executions.  The calls on the mutex are kept in the
      trace, so that the lock discipline can be read off it.
    - Every call on [c.cacheListener], on [c.mutex] and on [c.backingStore]
      is recorded, in program order, in a trace of effects, together with a
      mark for each read and each write of the map and the list.  Whatever
      listener was handed to the constructor (or the default one that
      replaces [nil]) receives exactly the [Notify] calls of that trace.
    - [time.Now()] is an input: an operation takes the readings of the
      clock that it makes. *)

From stdpp Require Import gmap strings list fin_maps.

Open Scope Z_scope.

(** ** Time *)

Abbreviation Time := Z (only parsing).
Abbreviation Duration := Z (only parsing).

Definition maxDuration : Duration := 2 ^ 63 - 1.
Definition minDuration : Duration := - 2 ^ 63.

(** [t.Sub(u)]: the duration [t - u], clamped to what a [Duration] holds. *)
Definition Sub (t u : Time) : Duration :=
  Z.max minDuration (Z.min maxDuration (t - u)).

(** The zero value that Go gives to a variable of each type. *)
Class Zero (V : Type) := zeroValue : V.
#[global] Instance string_Zero : Zero string := "".

(** ** Effects *)

Inductive MutexOp := Lock | Unlock | RLock | RUnlock.

Inductive Access := Read | Write.

Section Cache.
Context {K : Type} `{Countable K}.
Context {V : Type}.

(** The four methods of the interface [CacheListener]. *)
Inductive Notification :=
| OnHit (k : K)
| OnMiss (k : K)
| OnEvict (k : K)
| OnExpire (k : K).

Inductive Effect :=
| Mutex (op : MutexOp)        (* a call on c.mutex *)
| Notify (n : Notification)   (* a call on c.cacheListener *)
| Load (k : K)                (* a call of c.backingStore *)
| Index (a : Access).         (* the map or the list is read or written *)

(** ** Data *)

Record CacheItem := {
  key : K;
  value : V;
  timestamp : Time;
  expiry : Duration
}.

Record LRUCache := {
  capacity : Z;
  cache : gmap K CacheItem;
  order : list K;
  defaultTTL : Duration;
  backingStore : K → V * bool;
  cleanupInterval : Duration;
  stopCleanup : bool   (* the channel: [true] once it has been closed *)
}.

Definition with_index (c : LRUCache) (m : gmap K CacheItem) (l : list K) : LRUCache :=
  {| capacity := capacity c; cache := m; order := l;
     defaultTTL := defaultTTL c; backingStore := backingStore c;
     cleanupInterval := cleanupInterval c; stopCleanup := stopCleanup c |}.

(** ** A state and trace monad for the methods of [*LRUCache] *)

Definition M (A : Type) : Type := LRUCache → A * LRUCache * list Effect.

#[global] Instance M_ret : MRet M := λ A a c, (a, c, []).
#[global] Instance M_bind : MBind M := λ A B f m c,
  let '(a, c1, t1) := m c in
  let '(b, c2, t2) := f a c1 in
  (b, c2, t1 ++ t2).

Definition emit (e : Effect) : M unit := λ c, (tt, c, [e]).
Definition reads {A} (f : LRUCache → A) : M A := λ c, (f c, c, [Index Read]).
Definition writes (f : LRUCache → LRUCache) : M unit := λ c, (tt, f c, [Index Write]).
Definition field {A} (f : LRUCache → A) : M A := λ c, (f c, c, []).

Definition mutex (op : MutexOp) : M unit := emit (Mutex op).
Definition notify (n : Notification) : M unit := emit (Notify n).

(** [c.backingStore(key)] *)
Definition load (k : K) : M (V * bool) := λ c, (backingStore c k, c, [Load k]).

(** [c.cache[key]] with its [found] flag *)
Definition mapGet (k : K) : M (option CacheItem) := reads (λ c, cache c !! k).
(** [len(c.cache)] *)
Definition mapLen : M Z := reads (λ c, Z.of_nat (size (cache c))).
(** [delete(c.cache, key)] *)
Definition mapDelete (k : K) : M unit :=
  writes (λ c, with_index c (delete k (cache c)) (order c)).
(** [c.cache[key] = elem], and the assignments to the fields of an item *)
Definition mapSet (k : K) (item : CacheItem) : M unit :=
  writes (λ c, with_index c (<[k := item]> (cache c)) (order c)).

(** [l.Remove(e)]: unlinks [e]; nothing happens when [e] is not in [l]. *)
Definition list_Remove (e : K) (l : list K) : list K := filter (λ x, x ≠ e) l.
(** [l.MoveToFront(e)]: nothing happens when [e] is not in [l]. *)
Definition list_MoveToFront (e : K) (l : list K) : list K :=
  if decide (e ∈ l) then e :: list_Remove e l else l.

Definition orderRemove (e : K) : M unit :=
  writes (λ c, with_index c (cache c) (list_Remove e (order c))).
Definition orderMoveToFront (e : K) : M unit :=
  writes (λ c, with_index c (cache c) (list_MoveToFront e (order c))).
Definition orderPushFront (e : K) : M unit :=
  writes (λ c, with_index c (cache c) (e :: order c)).
(** [l.Back()] *)
Definition orderBack : M (option K) := reads (λ c, last (order c)).

(** [now.Sub(item.timestamp) > item.expiry] *)
Definition expired (now : Time) (item : CacheItem) : bool :=
  expiry item <? Sub now (timestamp item).

(** ** The methods *)

Definition evict : M unit :=
  back ← orderBack;
  match back with
  | Some elem =>
      mapDelete elem ;;
      notify (OnEvict elem) ;;
      orderRemove elem
  | None => mret tt
  end.

(** [Put(key, value, ttl...)]; [now] is the reading of [time.Now()]. *)
Definition Put (k : K) (v : V) (ttl : list Duration) (now : Time) : M unit :=
  mutex Lock ;;
  dflt ← field defaultTTL;
  let exp := match ttl with t :: _ => t | [] => dflt end in
  found ← mapGet k;
  match found with
  | Some item =>
      orderMoveToFront (key item) ;;
      mapSet k {| key := key item; value := v; timestamp := now; expiry := exp |} ;;
      mutex Unlock
  | None =>
      n ← mapLen;
      cap ← field capacity;
      (if cap <=? n then evict else mret tt) ;;
      orderPushFront k ;;
      mapSet k {| key := k; value := v; timestamp := now; expiry := exp |} ;;
      mutex Unlock
  end.

(** [var zeroValue V]: the zero value of the type of the values. *)
Context `{Zero V}.

Definition fetchFromBackingStore (k : K) (now : Time) : M V :=
  '(v, found) ← load k;
  if (found : bool) then Put k v [] now ;; mret v else mret zeroValue.

(** [Get(key)]; [since] is the clock as read by [time.Since], [now] the
    reading of the [time.Now()] that follows it (in [Get] itself on a
    hit, in [Put] on a refill). *)
Definition Get (k : K) (since now : Time) : M V :=
  mutex RLock ;;
  found ← mapGet k;
  match found with
  | Some item =>
      notify (OnHit k) ;;
      if expired since item then
        notify (OnExpire (key item)) ;;
        orderRemove (key item) ;;
        mapDelete k ;;
        mutex RUnlock ;;
        fetchFromBackingStore k now
      else
        orderMoveToFront (key item) ;;
        mapSet k {| key := key item; value := value item;
                    timestamp := now; expiry := expiry item |} ;;
        mutex RUnlock ;;
        mret (value item)
  | None =>
      notify (OnMiss k) ;;
      mutex RUnlock ;;
      fetchFromBackingStore k now
  end.

Definition Remove (k : K) : M unit :=
  mutex Lock ;;
  found ← mapGet k;
  match found with
  | Some item => orderRemove (key item) ;; mapDelete k ;; mutex Unlock
  | None => mutex Unlock
  end.

(** The body of the loop [for key, elem := range c.cache]: the runtime
    hands over the keys in an order of its own choosing, and a key that
    is no longer in the map is not produced. *)
Definition cleanupEntry (now : Time) (k : K) : M unit :=
  found ← mapGet k;
  match found with
  | Some item =>
      if expired now item then
        notify (OnExpire k) ;;
        orderRemove (key item) ;;
        mapDelete k
      else mret tt
  | None => mret tt
  end.

Fixpoint rangeCache (now : Time) (visit : list K) : M unit :=
  match visit with
  | [] => mret tt
  | k :: rest => cleanupEntry now k ;; rangeCache now rest
  end.

(** [cleanupExpiredEntries()]; [visit] is the order in which [range]
    walks the map on this run. *)
Definition cleanupExpiredEntries (now : Time) (visit : list K) : M unit :=
  mutex Lock ;;
  rangeCache now visit ;;
  mutex Unlock.

(** [NewLRUCache]: a [nil] backing store becomes the function that never
    finds anything; the goroutine that it starts is [startCleanup]. *)
Definition NewLRUCache (capacity : Z) (defaultTTL : Duration)
    (backingStore : option (K → V * bool)) (cleanupInterval : Duration) : LRUCache :=
  {| capacity := capacity;
     cache := ∅;
     order := [];
     defaultTTL := defaultTTL;
     backingStore := match backingStore with
                     | Some f => f
                     | None => λ _, (zeroValue, false)
                     end;
     cleanupInterval := cleanupInterval;
     stopCleanup := false |}.

(** ** The cleanup goroutine and [Close] *)

(** The case that the [select] of [startCleanup] takes on one turn of its
    loop: a tick (with the clock and the iteration order of that sweep),
    or the receive on [c.stopCleanup]. *)
Inductive Select :=
| TickerC (now : Time) (visit : list K)
| StopCleanup.

(** A receive on [c.stopCleanup] can only proceed once the channel is
    closed: nothing is ever sent on it. *)
Definition ready (c : LRUCache) (s : Select) : bool :=
  match s with
  | TickerC _ _ => true
  | StopCleanup => stopCleanup c
  end.

(** One turn of the loop; the result tells whether the loop goes on.
    The ticker is [time.NewTicker(c.cleanupInterval)], which wants a
    positive interval. *)
Definition startCleanup (s : Select) : M bool :=
  match s with
  | TickerC now visit => cleanupExpiredEntries now visit ;; mret true
  | StopCleanup => mret false
  end.

(** [close(c.stopCleanup)]; closing a closed channel panics ([None]). *)
Definition close_stopCleanup (c : LRUCache) : option LRUCache :=
  if stopCleanup c then None
  else Some {| capacity := capacity c; cache := cache c; order := order c;
               defaultTTL := defaultTTL c; backingStore := backingStore c;
               cleanupInterval := cleanupInterval c; stopCleanup := true |}.

(** [once.Do(f)] on a [sync.Once] whose state is the flag [done]. *)
Definition Once_Do {S : Type} (f : S → option S) (done : bool) (s : S) : option (bool * S) :=
  if done then Some (true, s)
  else match f s with
       | Some s' => Some (true, s')
       | None => None
       end.

(** [Close()].  [closeOnce] is a variable of the package, not a field of
    the cache: its state comes in and goes out next to the instance. *)
Definition Close (closeOnce : bool) (c : LRUCache) : option (bool * LRUCache) :=
  Once_Do close_stopCleanup closeOnce c.

(** ** Observations *)

Definition result {A} (r : A * LRUCache * list Effect) : A := r.1.1.
Definition state {A} (r : A * LRUCache * list Effect) : LRUCache := r.1.2.
Definition trace {A} (r : A * LRUCache * list Effect) : list Effect := r.2.

(** The calls that the listener receives. *)
Definition notifications (tr : list Effect) : list Notification :=
  omap (λ e, match e with Notify n => Some n | _ => None end) tr.

(** The loader calls. *)
Definition loads (tr : list Effect) : list K :=
  omap (λ e, match e with Load k => Some k | _ => None end) tr.

#[global] Instance Notification_eq_dec : EqDecision Notification.
Proof. solve_decision. Defined.

(** How many times a call occurs among those received. *)
Definition count (n : Notification) (ns : list Notification) : nat :=
  length (filter (λ x, x = n) ns).

(** [CountingCacheListener], the listener of the test file. *)
Record CountingCacheListener := {
  hitMap : gmap K nat;
  missMap : gmap K nat;
  evictMap : gmap K nat;
  expireMap : gmap K nat
}.

Definition NewCountingCacheListener : CountingCacheListener :=
  {| hitMap := ∅; missMap := ∅; evictMap := ∅; expireMap := ∅ |}.

(** [m[key]++]; a key that the map does not hold reads as 0. *)
Definition incr (k : K) (m : gmap K nat) : gmap K nat := <[k := S (m !!! k)]> m.

(** Its four methods. *)
Definition call (l : CountingCacheListener) (n : Notification) : CountingCacheListener :=
  match n with
  | OnHit k =>
      {| hitMap := incr k (hitMap l); missMap := missMap l;
         evictMap := evictMap l; expireMap := expireMap l |}
  | OnMiss k =>
      {| hitMap := hitMap l; missMap := incr k (missMap l);
         evictMap := evictMap l; expireMap := expireMap l |}
  | OnEvict k =>
      {| hitMap := hitMap l; missMap := missMap l;
         evictMap := incr k (evictMap l); expireMap := expireMap l |}
  | OnExpire k =>
      {| hitMap := hitMap l; missMap := missMap l;
         evictMap := evictMap l; expireMap := incr k (expireMap l) |}
  end.

(** A fresh counting listener after the calls [ns]. *)
Definition listen (ns : list Notification) : CountingCacheListener :=
  foldl call NewCountingCacheListener ns.

(** ** Sequences of operations on one cache *)

Inductive Op :=
| OpPut (k : K) (v : V) (ttl : list Duration) (now : Time)
| OpGet (k : K) (since now : Time)
| OpRemove (k : K)
| OpSweep (now : Time) (visit : list K).

Definition step (o : Op) : M unit :=
  match o with
  | OpPut k v ttl now => Put k v ttl now
  | OpGet k since now => Get k since now ;; mret tt
  | OpRemove k => Remove k
  | OpSweep now visit => cleanupExpiredEntries now visit
  end.

Fixpoint run (ops : list Op) : M unit :=
  match ops with
  | [] => mret tt
  | o :: rest => step o ;; run rest
  end.

(** ** The lock discipline *)

Inductive Held := Free | Shared | Exclusive.

(** What the calling goroutine holds after a call on [c.mutex]. *)
Definition held_after (op : MutexOp) : Held :=
  match op with
  | Lock => Exclusive
  | RLock => Shared
  | Unlock | RUnlock => Free
  end.

(** Every write of the index happens with the write lock held, every
    read with the write lock or a read lock. *)
Fixpoint guarded (h : Held) (tr : list Effect) : bool :=
  match tr with
  | [] => true
  | Mutex op :: tr' => guarded (held_after op) tr'
  | Index Write :: tr' =>
      match h with Exclusive => guarded h tr' | _ => false end
  | Index Read :: tr' =>
      match h with Free => false | _ => guarded h tr' end
  | _ :: tr' => guarded h tr'
  end.

(** ** Invariants of the index *)

(** The list and the map hold the same keys, the list without repeats,
    and an item sits under its own key. *)
Definition consistent (c : LRUCache) : Prop :=
  NoDup (order c)
  ∧ (∀ k, k ∈ order c ↔ is_Some (cache c !! k))
  ∧ (∀ k item, cache c !! k = Some item → key item = k).

(** The configuration and the stop channel are those of [c]; only the
    index may differ. *)
Definition frames (c c' : LRUCache) : Prop :=
  c' = with_index c (cache c') (order c').

(** The number of entries against the capacity; a cache never holds
    less than room for one entry (see [Put]). *)
Definition bounded (c : LRUCache) : Prop :=
  Z.of_nat (size (cache c)) ≤ Z.max (capacity c) 1.

(** What every method keeps of a cache [c] when it leaves it as [c']. *)
Definition keeps (c c' : LRUCache) : Prop :=
  frames c c'
  ∧ (consistent c → consistent c')
  ∧ (consistent c → bounded c → bounded c').

(** [&CacheItem[K, V]{key, value, time.Now(), expiry}] *)
Definition entry (k : K) (v : V) (now : Time) (exp : Duration) : CacheItem :=
  {| key := k; value := v; timestamp := now; expiry := exp |}.

(** The TTL that [Put] gives to an entry: [ttl[0]] when the variadic
    argument is not empty, the default of the cache otherwise. *)
Definition ttl_of (c : LRUCache) (ttl : list Duration) : Duration :=
  match ttl with t :: _ => t | [] => defaultTTL c end.

(** The name of the element [c.cache[k]]. *)
Definition elemOf (c : LRUCache) (k : K) : K :=
  match cache c !! k with
  | Some item => key item
  | None => k
  end.

(** Is the entry of [k], if any, stale at [now]? *)
Definition staleAt (now : Time) (c : LRUCache) (k : K) : bool :=
  match cache c !! k with
  | Some item => expired now item
  | None => false
  end.

End Cache.

Arguments Notification K : clear implicits.
Arguments Effect K : clear implicits.
Arguments CacheItem K V : clear implicits.
Arguments LRUCache K {_ _} V.
Arguments M K {_ _} V A.
Arguments Select K : clear implicits.
Arguments Op K V : clear implicits.
Arguments NewLRUCache {K _ _ V _} capacity defaultTTL backingStore cleanupInterval.

(** ** [sync.RWMutex] *)

(** The state of a [sync.RWMutex]: is the write lock held, and by how many
    goroutines is the read lock held. *)
Record RWMutex := { writer : bool; readers : nat }.

(** A call on the mutex: the state after it, or [None] while the caller
    has to wait. *)
Definition rw_call (m : RWMutex) (op : MutexOp) : option RWMutex :=
  match op with
  | Lock =>
      if writer m || negb (Nat.eqb (readers m) 0) then None
      else Some {| writer := true; readers := 0 |}
  | Unlock => Some {| writer := false; readers := readers m |}
  | RLock =>
      if writer m then None
      else Some {| writer := false; readers := S (readers m) |}
  | RUnlock => Some {| writer := writer m; readers := Nat.pred (readers m) |}
  end.

(** Two goroutines taking turns, one call each. *)
Fixpoint alternate {A} (l1 l2 : list A) : list A :=
  match l1, l2 with
  | x :: l1', y :: l2' => x :: y :: alternate l1' l2'
  | [], l | l, [] => l
  end.

(** The calls of several goroutines in the order in which they happen:
    [None] if one of them would have had to wait for the mutex at its
    turn, otherwise whether every write of the index happened with the
    write lock held. *)
Fixpoint writes_exclusive {K} (m : RWMutex) (s : list (Effect K)) : option bool :=
  match s with
  | [] => Some true
  | Mutex op :: s' =>
      match rw_call m op with
      | Some m' => writes_exclusive m' s'
      | None => None
      end
  | Index Write :: s' => if writer m then writes_exclusive m s' else Some false
  | _ :: s' => writes_exclusive m s'
  end.

(** ** Clients, and what a trace shows of the calls *)

Section Programs.
Context {K : Type} `{Countable K} {V : Type} `{Zero V}.

(** The calls on [c.mutex] in a trace. *)
Definition mutexOps (tr : list (Effect K)) : list MutexOp :=
  omap (λ e, match e with Mutex op => Some op | _ => None end) tr.

Definition idle : RWMutex := {| writer := false; readers := 0 |}.

(** A call on the mutex by the only goroutine there is: [None] when the
    call would wait for ever, or is an unlock of a mutex that is not
    locked (a fatal error of the runtime). *)
Definition mutex_call (m : RWMutex) (op : MutexOp) : option RWMutex :=
  match op with
  | Unlock => if writer m then rw_call m op else None
  | RUnlock => if Nat.eqb (readers m) 0 then None else rw_call m op
  | Lock | RLock => rw_call m op
  end.

Fixpoint mutex_calls (m : RWMutex) (ops : list MutexOp) : option RWMutex :=
  match ops with
  | [] => Some m
  | op :: rest =>
      match mutex_call m op with
      | Some m' => mutex_calls m' rest
      | None => None
      end
  end.

(** Where the calls out of the cache are made: [None] if the loader is
    called with the mutex held or the listener without it, otherwise what
    the goroutine holds at the end. *)
Fixpoint placed (h : Held) (tr : list (Effect K)) : option Held :=
  match tr with
  | [] => Some h
  | Mutex op :: tr' => placed (held_after op) tr'
  | Notify _ :: tr' => match h with Free => None | _ => placed h tr' end
  | Load _ :: tr' => match h with Free => placed h tr' | _ => None end
  | Index _ :: tr' => placed h tr'
  end.

(** The cache [c] with its channel closed. *)
Definition stopped (c : LRUCache K V) : LRUCache K V :=
  {| capacity := capacity c; cache := cache c; order := order c;
     defaultTTL := defaultTTL c; backingStore := backingStore c;
     cleanupInterval := cleanupInterval c; stopCleanup := true |}.

(** A program that holds the caches [cs] and calls [Close] on them, one
    call after the other, [calls] naming the cache of each call. *)
Fixpoint Closes (closeOnce : bool) (cs : list (LRUCache K V)) (calls : list nat)
    : option (bool * list (LRUCache K V)) :=
  match calls with
  | [] => Some (closeOnce, cs)
  | i :: rest =>
      match cs !! i with
      | Some c =>
          match Close closeOnce c with
          | Some (once, c') => Closes once (<[i := c']> cs) rest
          | None => None
          end
      | None => Closes closeOnce cs rest
      end
  end.

(** [Get(k)] again and again, with the clock readings of each call. *)
Fixpoint Gets (k : K) (reads : list (Time * Time)) : M K V (list V) :=
  match reads with
  | [] => mret []
  | (since, now) :: rest =>
      v ← Get k since now;
      vs ← Gets k rest;
      mret (v :: vs)
  end.

(** Each read comes no later than [exp] after the timestamp that the
    read before it left. *)
Fixpoint within (exp : Duration) (last : Time) (reads : list (Time * Time)) : Prop :=
  match reads with
  | [] => True
  | (since, now) :: rest => Sub since last ≤ exp ∧ within exp now rest
  end.

(** One [Put] for each element of the list. *)
Definition puts (ps : list (K * V * list Duration * Time)) : list (Op K V) :=
  (λ p, OpPut p.1.1.1 p.1.1.2 p.1.2 p.2) <$> ps.

Definition is_Put (o : Op K V) : bool :=
  match o with OpPut _ _ _ _ => true | _ => false end.

End Programs.

(** ** The fixtures of the test file *)

Definition second : Duration := 1000000000.

(** The backing store of the tests and of [main]. *)
Definition testStore (key : string) : string * bool :=
  if decide (key = "keyX") then ("valueX", true) else ("", false).

(** [newTestCache(capacity, defaultTTL, listener)] *)
Definition newTestCache (capacity : Z) (defaultTTL : Duration) : LRUCache string string :=
  NewLRUCache capacity defaultTTL (Some testStore) (5 * second).

(** ** [main] *)

(** [NoOpCacheListener], the listener that [NewLRUCache] puts in the place
    of [nil]: each method prints the key and a word on a line of its own. *)
Definition NoOpCacheListener (n : Notification string) : string :=
  match n with
  | OnHit key => key +:+ " Hit"
  | OnMiss key => key +:+ " Miss"
  | OnEvict key => key +:+ " Evicted"
  | OnExpire key => key +:+ " Expired"
  end.

(** The lines that the listener prints during a run. *)
Definition printed (tr : list (Effect string)) : list string :=
  NoOpCacheListener <$> notifications tr.

(** [main()]: the lines on standard output, and what [cache.Close()]
    returns at the end.  The arguments are the readings of the clock, in
    the order in which the program makes them; no tick of the cleanup
    goroutine falls into the run. *)
Definition main (t1 s2 t2 t3 t4 s5 t5 s6 t6 : Time)
    : list string * option (bool * LRUCache string string) :=
  let cache := NewLRUCache 2 (5 * second) (Some testStore) (5 * second) in
  let r1 := Put "key1" "value1" [] t1 cache in
  let r2 := Get "key1" s2 t2 (state r1) in
  let r3 := Put "key2" "value2" [] t3 (state r2) in
  let r4 := Put "key3" "value3" [] t4 (state r3) in
  let r5 := Get "key1" s5 t5 (state r4) in
  let r6 := Get "keyX" s6 t6 (state r5) in
  (printed (trace r1)
   ++ printed (trace r2) ++ [result r2]
   ++ printed (trace r3)
   ++ printed (trace r4)
   ++ printed (trace r5) ++ [result r5]
   ++ printed (trace r6) ++ [result r6],
   Close false (state r6)).

(** * Properties *)

Section Properties.
Context {K : Type} `{Countable K} {V : Type} `{Zero V}.
Implicit Types (c : LRUCache K V) (k e : K) (v : V) (item : CacheItem K V).
Implicit Types (now since : Z) (ttl : list Z) (tr : list (Effect K)).

(** ** What each method computes, case by case *)

Ltac run_M :=
  unfold mbind, M_bind, mret, M_ret, mutex, notify, emit, field, load,
    mapGet, mapLen, mapDelete, mapSet, orderRemove, orderMoveToFront,
    orderPushFront, orderBack, reads, writes; simpl.

Lemma evict_eq c :
  evict c =
    match last (order c) with
    | Some e =>
        (tt, with_index c (delete e (cache c)) (list_Remove e (order c)),
         [Index Read; Index Write; Notify (OnEvict e); Index Write])
    | None => (tt, c, [Index Read])
    end.
Proof. unfold evict. run_M. destruct (last (order c)); reflexivity. Qed.

Lemma Put_found c k v ttl now item :
  cache c !! k = Some item →
  Put k v ttl now c =
    (tt,
     with_index c (<[k := entry (key item) v now (ttl_of c ttl)]> (cache c))
       (list_MoveToFront (key item) (order c)),
     [Mutex Lock; Index Read; Index Write; Index Write; Mutex Unlock]).
Proof. intros Hk. unfold Put. run_M. rewrite Hk. reflexivity. Qed.

Lemma Put_room c k v ttl now :
  cache c !! k = None →
  Z.of_nat (size (cache c)) < capacity c →
  Put k v ttl now c =
    (tt,
     with_index c (<[k := entry k v now (ttl_of c ttl)]> (cache c)) (k :: order c),
     [Mutex Lock; Index Read; Index Read; Index Write; Index Write; Mutex Unlock]).
Proof.
  intros Hk Hn. unfold Put. run_M. rewrite Hk.
  destruct (Z.leb_spec (capacity c) (Z.of_nat (size (cache c)))); [lia|].
  reflexivity.
Qed.

Lemma Put_full c k v ttl now e :
  cache c !! k = None →
  capacity c ≤ Z.of_nat (size (cache c)) →
  last (order c) = Some e →
  Put k v ttl now c =
    (tt,
     with_index c (<[k := entry k v now (ttl_of c ttl)]> (delete e (cache c)))
       (k :: list_Remove e (order c)),
     [Mutex Lock; Index Read; Index Read; Index Read; Index Write;
      Notify (OnEvict e); Index Write; Index Write; Index Write; Mutex Unlock]).
Proof.
  intros Hk Hn He. unfold Put. run_M. rewrite Hk.
  destruct (Z.leb_spec (capacity c) (Z.of_nat (size (cache c)))); [|lia].
  rewrite evict_eq, He. reflexivity.
Qed.

Lemma Put_full_empty c k v ttl now :
  cache c !! k = None →
  capacity c ≤ Z.of_nat (size (cache c)) →
  last (order c) = None →
  Put k v ttl now c =
    (tt,
     with_index c (<[k := entry k v now (ttl_of c ttl)]> (cache c)) (k :: order c),
     [Mutex Lock; Index Read; Index Read; Index Read; Index Write; Index Write;
      Mutex Unlock]).
Proof.
  intros Hk Hn He. unfold Put. run_M. rewrite Hk.
  destruct (Z.leb_spec (capacity c) (Z.of_nat (size (cache c)))); [|lia].
  rewrite evict_eq, He. destruct c; reflexivity.
Qed.

Lemma fetch_eq c k now :
  fetchFromBackingStore k now c =
    if (backingStore c k).2
    then (let r := Put k (backingStore c k).1 [] now c in
          ((backingStore c k).1, state r, Load k :: trace r))
    else (zeroValue, c, [Load k]).
Proof.
  unfold fetchFromBackingStore. run_M.
  destruct (backingStore c k) as [v [|]]; simpl; [|reflexivity].
  destruct (Put k v [] now c) as [[[] c1] t1]. unfold state, trace. simpl.
  by rewrite app_nil_r.
Qed.

Lemma Remove_eq c k :
  Remove k c =
    match cache c !! k with
    | Some item =>
        (tt, with_index c (delete k (cache c)) (list_Remove (key item) (order c)),
         [Mutex Lock; Index Read; Index Write; Index Write; Mutex Unlock])
    | None => (tt, c, [Mutex Lock; Index Read; Mutex Unlock])
    end.
Proof. unfold Remove. run_M. destruct (cache c !! k); reflexivity. Qed.

Lemma Get_miss c k since now :
  cache c !! k = None →
  Get k since now c =
    (let r := fetchFromBackingStore k now c in
     (result r, state r,
      [Mutex RLock; Index Read; Notify (OnMiss k); Mutex RUnlock] ++ trace r)).
Proof.
  intros Hk. unfold Get. run_M. rewrite Hk.
  by destruct (fetchFromBackingStore k now c) as [[r c1] t1].
Qed.

Lemma Get_expired c k since now item :
  cache c !! k = Some item →
  expired since item = true →
  Get k since now c =
    (let r := fetchFromBackingStore k now
                (with_index c (delete k (cache c))
                   (list_Remove (key item) (order c))) in
     (result r, state r,
      [Mutex RLock; Index Read; Notify (OnHit k); Notify (OnExpire (key item));
       Index Write; Index Write; Mutex RUnlock] ++ trace r)).
Proof.
  intros Hk Hx. unfold Get. run_M. rewrite Hk, Hx. run_M.
  by destruct (fetchFromBackingStore k now _) as [[r c1] t1].
Qed.

Lemma Get_live c k since now item :
  cache c !! k = Some item →
  expired since item = false →
  Get k since now c =
    (value item,
     with_index c
       (<[k := entry (key item) (value item) now (expiry item)]> (cache c))
       (list_MoveToFront (key item) (order c)),
     [Mutex RLock; Index Read; Notify (OnHit k); Index Write; Index Write;
      Mutex RUnlock]).
Proof. intros Hk Hx. unfold Get. run_M. rewrite Hk, Hx. reflexivity. Qed.

Lemma cleanupEntry_eq c now k :
  cleanupEntry now k c =
    if staleAt now c k
    then (tt, with_index c (delete k (cache c))
                (list_Remove (elemOf c k) (order c)),
          [Index Read; Notify (OnExpire k); Index Write; Index Write])
    else (tt, c, [Index Read]).
Proof.
  unfold cleanupEntry, staleAt, elemOf. run_M.
  destruct (cache c !! k) as [item|]; [|reflexivity].
  destruct (expired now item); reflexivity.
Qed.

(** Every run of [Put] is one of four. *)
Lemma Put_cases c k v ttl now (P : () * LRUCache K V * list (Effect K) → Prop) :
  (∀ item, cache c !! k = Some item →
     P (tt,
        with_index c (<[k := entry (key item) v now (ttl_of c ttl)]> (cache c))
          (list_MoveToFront (key item) (order c)),
        [Mutex Lock; Index Read; Index Write; Index Write; Mutex Unlock])) →
  (cache c !! k = None → Z.of_nat (size (cache c)) < capacity c →
     P (tt,
        with_index c (<[k := entry k v now (ttl_of c ttl)]> (cache c)) (k :: order c),
        [Mutex Lock; Index Read; Index Read; Index Write; Index Write;
         Mutex Unlock])) →
  (∀ e, cache c !! k = None → capacity c ≤ Z.of_nat (size (cache c)) →
     last (order c) = Some e →
     P (tt,
        with_index c (<[k := entry k v now (ttl_of c ttl)]> (delete e (cache c)))
          (k :: list_Remove e (order c)),
        [Mutex Lock; Index Read; Index Read; Index Read; Index Write;
         Notify (OnEvict e); Index Write; Index Write; Index Write;
         Mutex Unlock])) →
  (cache c !! k = None → capacity c ≤ Z.of_nat (size (cache c)) →
     last (order c) = None →
     P (tt,
        with_index c (<[k := entry k v now (ttl_of c ttl)]> (cache c)) (k :: order c),
        [Mutex Lock; Index Read; Index Read; Index Read; Index Write;
         Index Write; Mutex Unlock])) →
  P (Put k v ttl now c).
Proof.
  intros Hfound Hroom Hfull Hempty.
  destruct (cache c !! k) as [item|] eqn:Hk.
  { erewrite Put_found by done. by apply Hfound. }
  destruct (Z.lt_ge_cases (Z.of_nat (size (cache c))) (capacity c)).
  { rewrite Put_room by done. by apply Hroom. }
  destruct (last (order c)) as [e|] eqn:He.
  - erewrite Put_full by done. by apply Hfull.
  - rewrite Put_full_empty by done. by apply Hempty.
Qed.

(** ** The index stays well formed *)

Lemma with_index_id c : with_index c (cache c) (order c) = c.
Proof. by destruct c. Qed.

Lemma elem_of_list_Remove e (l : list K) x : x ∈ list_Remove e l ↔ x ∈ l ∧ x ≠ e.
Proof. unfold list_Remove. rewrite list_elem_of_filter. tauto. Qed.

Lemma NoDup_list_Remove e (l : list K) : NoDup l → NoDup (list_Remove e l).
Proof. apply NoDup_filter. Qed.

Lemma list_Remove_absent e (l : list K) : e ∉ l → list_Remove e l = l.
Proof.
  unfold list_Remove. induction l as [|x l IH]; [done|].
  rewrite not_elem_of_cons. intros [Hne Hl].
  rewrite filter_cons_True by done. by rewrite IH.
Qed.

Lemma consistent_new cap dttl bs interval :
  consistent (NewLRUCache (K:=K) (V:=V) cap dttl bs interval).
Proof.
  split_and!; simpl.
  - constructor.
  - intros k. rewrite lookup_empty, elem_of_nil. split; [done|]. by intros [? ?].
  - intros k item. by rewrite lookup_empty.
Qed.

Lemma consistent_drop c k :
  consistent c →
  consistent (with_index c (delete k (cache c)) (list_Remove k (order c))).
Proof.
  intros (Hnd & Hdom & Hkey). split_and!; simpl.
  - by apply NoDup_list_Remove.
  - intros x. rewrite elem_of_list_Remove, Hdom, lookup_delete_is_Some. naive_solver.
  - intros x item. rewrite lookup_delete_Some. naive_solver.
Qed.

Lemma consistent_touch c k item' :
  consistent c → is_Some (cache c !! k) → key item' = k →
  consistent (with_index c (<[k := item']> (cache c)) (list_MoveToFront k (order c))).
Proof.
  intros (Hnd & Hdom & Hkey) Hk Hi. unfold list_MoveToFront.
  destruct (decide (k ∈ order c)) as [Hin|Hout]; [|by apply Hdom in Hk].
  split_and!; simpl.
  - constructor; [|by apply NoDup_list_Remove].
    rewrite elem_of_list_Remove. naive_solver.
  - intros x. rewrite elem_of_cons, elem_of_list_Remove, lookup_insert_is_Some.
    rewrite Hdom. destruct (decide (x = k)); naive_solver.
  - intros x item. rewrite lookup_insert_Some. naive_solver.
Qed.

Lemma consistent_push c k item' :
  consistent c → cache c !! k = None → key item' = k →
  consistent (with_index c (<[k := item']> (cache c)) (k :: order c)).
Proof.
  intros (Hnd & Hdom & Hkey) Hk Hi. split_and!; simpl.
  - constructor; [|done]. rewrite Hdom, Hk. by intros [? ?].
  - intros x. rewrite elem_of_cons, lookup_insert_is_Some, Hdom.
    destruct (decide (x = k)); naive_solver.
  - intros x item. rewrite lookup_insert_Some. naive_solver.
Qed.

Lemma consistent_size c : consistent c → size (cache c) = length (order c).
Proof.
  intros (Hnd & Hdom & _).
  rewrite <- size_dom, <- (size_list_to_set (C:=gset K)) by done.
  f_equal. apply set_eq. intros x.
  rewrite elem_of_dom, elem_of_list_to_set. by rewrite Hdom.
Qed.

Lemma consistent_key c k item :
  consistent c → cache c !! k = Some item → key item = k.
Proof. intros Hc. apply Hc. Qed.

Lemma consistent_elem_of c k :
  consistent c → k ∈ order c ↔ is_Some (cache c !! k).
Proof. intros Hc. apply Hc. Qed.

Lemma consistent_last c e :
  consistent c → last (order c) = Some e → is_Some (cache c !! e).
Proof.
  intros Hc He. apply (consistent_elem_of c e Hc).
  by apply last_Some_elem_of.
Qed.

Lemma consistent_no_last c :
  consistent c → last (order c) = None → size (cache c) = 0%nat.
Proof.
  intros Hc He. rewrite (consistent_size c Hc).
  apply last_None in He. by rewrite He.
Qed.

(** ** What the methods keep *)

Lemma frames_with_index c m l : frames c (with_index c m l).
Proof. reflexivity. Qed.

Lemma frames_capacity c c' : frames c c' → capacity c' = capacity c.
Proof. intros ->. reflexivity. Qed.

Lemma frames_backingStore c c' : frames c c' → backingStore c' = backingStore c.
Proof. intros ->. reflexivity. Qed.

Lemma frames_defaultTTL c c' : frames c c' → defaultTTL c' = defaultTTL c.
Proof. intros ->. reflexivity. Qed.

Lemma frames_stopCleanup c c' : frames c c' → stopCleanup c' = stopCleanup c.
Proof. intros ->. reflexivity. Qed.

Lemma keeps_refl c : keeps c c.
Proof.
  split_and!; [|done..]. unfold frames. by rewrite with_index_id.
Qed.

Lemma keeps_trans c c1 c2 : keeps c c1 → keeps c1 c2 → keeps c c2.
Proof.
  intros (Hf1 & Hc1 & Hb1) (Hf2 & Hc2 & Hb2). split_and!.
  - unfold frames in *. rewrite Hf2 at 1. rewrite Hf1 at 1. reflexivity.
  - auto.
  - auto.
Qed.

Lemma elemOf_consistent c k : consistent c → elemOf c k = k.
Proof.
  intros Hc. unfold elemOf. destruct (cache c !! k) as [item|] eqn:Hk; [|done].
  by apply (consistent_key c).
Qed.

Lemma keeps_drop c k e :
  (consistent c → e = k) →
  keeps c (with_index c (delete k (cache c)) (list_Remove e (order c))).
Proof.
  intros He. split_and!; [apply frames_with_index| |].
  { intros Hc. rewrite (He Hc). by apply consistent_drop. }
  intros _. unfold bounded. simpl.
  pose proof (map_size_delete k (cache c)) as Hs.
  destruct (cache c !! k); simpl in Hs; lia.
Qed.

Lemma keeps_touch c k item item' :
  cache c !! k = Some item → key item' = key item →
  keeps c (with_index c (<[k := item']> (cache c))
             (list_MoveToFront (key item) (order c))).
Proof.
  intros Hk Hi. split_and!; [apply frames_with_index|..].
  - intros Hc. rewrite (consistent_key c k item Hc Hk).
    apply consistent_touch; [done|eauto|].
    rewrite Hi. by apply (consistent_key c).
  - intros _. unfold bounded. simpl. rewrite map_size_insert_Some by eauto. done.
Qed.

Lemma keeps_Put c k v ttl now : keeps c (state (Put k v ttl now c)).
Proof.
  apply (Put_cases c k v ttl now (λ r, keeps c (state r)));
    unfold state; cbn [fst snd].
  - intros item Hk. by apply (keeps_touch c k item).
  - intros Hk Hn. split_and!; [apply frames_with_index|..].
    + intros Hc. by apply consistent_push.
    + intros _ _. unfold bounded. simpl.
      rewrite map_size_insert_None by done. lia.
  - intros e Hk Hn He. split_and!; [apply frames_with_index|..].
    + intros Hc. pose proof (consistent_drop c e Hc) as Hd.
      apply (consistent_push _ k (entry k v now (ttl_of c ttl))) in Hd;
        [exact Hd| |done].
      simpl. rewrite lookup_delete_None. by right.
    + intros Hc. unfold bounded. simpl.
      rewrite map_size_insert_None by (rewrite lookup_delete_None; by right).
      rewrite map_size_delete_Some by (by apply consistent_last).
      pose proof (consistent_last c e Hc He) as [item Hi].
      assert (size (cache c) ≠ 0%nat).
      { intros Hz%map_size_empty_inv. by rewrite Hz, lookup_empty in Hi. }
      lia.
  - intros Hk Hn He. split_and!; [apply frames_with_index|..].
    + intros Hc. by apply consistent_push.
    + intros Hc _. unfold bounded. simpl.
      rewrite map_size_insert_None by done.
      rewrite (consistent_no_last c Hc He). lia.
Qed.

Lemma keeps_fetch c k now : keeps c (state (fetchFromBackingStore k now c)).
Proof.
  rewrite fetch_eq. destruct (backingStore c k).2.
  - cbv zeta. unfold state at 1. cbn [fst snd]. apply keeps_Put.
  - apply keeps_refl.
Qed.

Lemma keeps_Get c k since now : keeps c (state (Get k since now c)).
Proof.
  destruct (cache c !! k) as [item|] eqn:Hk.
  - destruct (expired since item) eqn:Hx.
    + erewrite Get_expired by done. cbv zeta. unfold state at 1. cbn [fst snd].
      eapply keeps_trans; [apply (keeps_drop c k (key item))|apply keeps_fetch].
      intros Hc. by apply (consistent_key c).
    + erewrite Get_live by done. unfold state. cbn [fst snd].
      by apply (keeps_touch c k item).
  - rewrite Get_miss by done. cbv zeta. unfold state at 1. cbn [fst snd].
    apply keeps_fetch.
Qed.

Lemma keeps_Remove c k : keeps c (state (Remove k c)).
Proof.
  rewrite Remove_eq. destruct (cache c !! k) as [item|] eqn:Hk.
  - apply keeps_drop. intros Hc. by apply (consistent_key c).
  - apply keeps_refl.
Qed.

Lemma keeps_cleanupEntry c now k : keeps c (state (cleanupEntry now k c)).
Proof.
  rewrite cleanupEntry_eq. destruct (staleAt now c k).
  - apply keeps_drop. apply elemOf_consistent.
  - apply keeps_refl.
Qed.

Lemma state_bind {A B} (m : M K V A) (f : A → M K V B) c :
  state ((m ≫= f) c) = state (f (result (m c)) (state (m c))).
Proof.
  unfold mbind, M_bind, state, result.
  destruct (m c) as [[a c1] t1]. simpl.
  by destruct (f a c1) as [[b c2] t2].
Qed.

Lemma trace_bind {A B} (m : M K V A) (f : A → M K V B) c :
  trace ((m ≫= f) c) = trace (m c) ++ trace (f (result (m c)) (state (m c))).
Proof.
  unfold mbind, M_bind, state, result, trace.
  destruct (m c) as [[a c1] t1]. simpl.
  by destruct (f a c1) as [[b c2] t2].
Qed.

Lemma result_bind {A B} (m : M K V A) (f : A → M K V B) c :
  result ((m ≫= f) c) = result (f (result (m c)) (state (m c))).
Proof.
  unfold mbind, M_bind, state, result.
  destruct (m c) as [[a c1] t1]. simpl.
  by destruct (f a c1) as [[b c2] t2].
Qed.

Lemma keeps_rangeCache now visit c : keeps c (state (rangeCache now visit c)).
Proof.
  revert c. induction visit as [|k rest IH]; intros c; simpl.
  - apply keeps_refl.
  - rewrite state_bind.
    eapply keeps_trans; [apply (keeps_cleanupEntry c now k)|apply IH].
Qed.

Lemma keeps_cleanupExpiredEntries c now visit :
  keeps c (state (cleanupExpiredEntries now visit c)).
Proof.
  unfold cleanupExpiredEntries. rewrite !state_bind.
  apply keeps_rangeCache.
Qed.

Lemma keeps_step c o : keeps c (state (step o c)).
Proof.
  destruct o; simpl.
  - apply keeps_Put.
  - rewrite state_bind. apply keeps_Get.
  - apply keeps_Remove.
  - apply keeps_cleanupExpiredEntries.
Qed.

Lemma keeps_run ops c : keeps c (state (run ops c)).
Proof.
  revert c. induction ops as [|o rest IH]; intros c; simpl.
  - apply keeps_refl.
  - rewrite state_bind. eapply keeps_trans; [apply keeps_step|apply IH].
Qed.

Lemma bounded_new cap dttl bs interval :
  bounded (NewLRUCache (K:=K) (V:=V) cap dttl bs interval).
Proof. unfold bounded. simpl. rewrite map_size_empty. lia. Qed.

(** ** The capacity bound *)

Lemma run_bounded cap dttl bs interval (ops : list (Op K V)) :
  let c := state (run ops (NewLRUCache cap dttl bs interval)) in
  consistent c ∧ Z.of_nat (size (cache c)) ≤ Z.max cap 1.
Proof.
  simpl.
  destruct (keeps_run ops (NewLRUCache cap dttl bs interval))
    as (Hf & Hc & Hb).
  split; [apply Hc, consistent_new|].
  apply frames_capacity in Hf. simpl in Hf.
  specialize (Hb (consistent_new _ _ _ _) (bounded_new _ _ _ _)).
  unfold bounded in Hb. by rewrite Hf in Hb.
Qed.

(** C1 (as amended): on a cache built with a capacity of at least 1, after
    any sequence of [Put], [Get], [Remove] (and of sweeps of the cleanup
    goroutine) the map holds at most [capacity] entries; whatever the
    capacity, it holds at most [max capacity 1]. *)
Theorem capacity_bound cap dttl bs interval (ops : list (Op K V)) :
  let c := state (run ops (NewLRUCache cap dttl bs interval)) in
  (1 ≤ cap → Z.of_nat (size (cache c)) ≤ cap)
  ∧ Z.of_nat (size (cache c)) ≤ Z.max cap 1.
Proof.
  pose proof (run_bounded cap dttl bs interval ops) as [_ Hb].
  simpl in *. split; [lia|done].
Qed.

(** ** Counting the calls on the listener *)

Lemma notifications_app tr1 tr2 :
  notifications (tr1 ++ tr2) = notifications tr1 ++ notifications tr2.
Proof. apply omap_app. Qed.

Lemma count_nil (n : Notification K) : count n [] = 0%nat.
Proof. reflexivity. Qed.

Lemma count_cons (n x : Notification K) ns :
  count n (x :: ns) = ((if decide (x = n) then 1 else 0) + count n ns)%nat.
Proof.
  unfold count. destruct (decide (x = n)).
  - by rewrite filter_cons_True.
  - by rewrite filter_cons_False.
Qed.

Lemma count_app (n : Notification K) ns1 ns2 :
  count n (ns1 ++ ns2) = (count n ns1 + count n ns2)%nat.
Proof. unfold count. by rewrite filter_app, length_app. Qed.

Lemma count_elem_of (n : Notification K) ns : n ∈ ns ↔ count n ns ≠ 0%nat.
Proof.
  unfold count. split.
  - intros Hin Hz. apply length_zero_iff_nil in Hz.
    assert (n ∈ filter (λ x, x = n) ns) as Hf by (by apply list_elem_of_filter).
    rewrite Hz in Hf. by apply elem_of_nil in Hf.
  - intros Hz. destruct (filter (λ x, x = n) ns) as [|x l] eqn:Hf; [done|].
    assert (x ∈ filter (λ x, x = n) ns) as Hx by (rewrite Hf; left).
    apply list_elem_of_filter in Hx as [-> Hx]. done.
Qed.

Lemma lookup_total_incr k k' (m : gmap K nat) :
  incr k m !!! k' = ((if decide (k = k') then 1 else 0) + m !!! k')%nat.
Proof.
  unfold incr. destruct (decide (k = k')) as [->|Hne].
  - by rewrite lookup_total_insert_eq.
  - by rewrite lookup_total_insert_ne.
Qed.

Lemma counters_foldl ns (l : CountingCacheListener) k :
  hitMap (foldl call l ns) !!! k = (hitMap l !!! k + count (OnHit k) ns)%nat
  ∧ missMap (foldl call l ns) !!! k = (missMap l !!! k + count (OnMiss k) ns)%nat
  ∧ evictMap (foldl call l ns) !!! k = (evictMap l !!! k + count (OnEvict k) ns)%nat
  ∧ expireMap (foldl call l ns) !!! k
    = (expireMap l !!! k + count (OnExpire k) ns)%nat.
Proof.
  revert l. induction ns as [|n ns IH]; intros l.
  - rewrite !count_nil. simpl. lia.
  - simpl foldl. destruct (IH (call l n)) as (-> & -> & -> & ->).
    rewrite !count_cons.
    destruct n as [x|x|x|x]; simpl; rewrite lookup_total_incr;
      repeat case_decide; simplify_eq; lia.
Qed.

(** The counters of a fresh [CountingCacheListener] count the calls. *)
Lemma hitMap_listen ns k : hitMap (listen ns) !!! k = count (OnHit k) ns.
Proof.
  unfold listen. rewrite (proj1 (counters_foldl ns _ k)). simpl.
  by rewrite lookup_total_empty.
Qed.

Lemma evictMap_listen ns k : evictMap (listen ns) !!! k = count (OnEvict k) ns.
Proof.
  unfold listen. destruct (counters_foldl ns NewCountingCacheListener k)
    as (_ & _ & -> & _). simpl. by rewrite lookup_total_empty.
Qed.

Lemma expireMap_listen ns k : expireMap (listen ns) !!! k = count (OnExpire k) ns.
Proof.
  unfold listen. destruct (counters_foldl ns NewCountingCacheListener k)
    as (_ & _ & _ & ->). simpl. by rewrite lookup_total_empty.
Qed.

(** ** Least recently used goes first *)

Lemma list_Remove_cons_ne e x (l : list K) :
  x ≠ e → list_Remove e (x :: l) = x :: list_Remove e l.
Proof. intros Hne. unfold list_Remove. by rewrite filter_cons_True. Qed.

Lemma list_Remove_cons_eq e (l : list K) :
  list_Remove e (e :: l) = list_Remove e l.
Proof. unfold list_Remove. rewrite filter_cons_False; [done|]. by intros Hne. Qed.

Lemma list_Remove_nil e : list_Remove e [] = [].
Proof. reflexivity. Qed.

(** C2: with capacity 2, [Put(A) Put(B) Put(C)] on distinct keys evicts A
    and nothing else, the listener hears [OnEvict(A)] once, and a [Get(A)]
    that follows, the loader not finding A, returns the zero value. *)
Theorem lru_order (A B C : K) vA vB vC ttlA ttlB ttlC t1 t2 t3 since now
    dttl bs interval :
  A ≠ B → A ≠ C → B ≠ C →
  let c0 := NewLRUCache 2 dttl bs interval in
  (backingStore c0 A).2 = false →
  let r3 := (Put A vA ttlA t1 ;; Put B vB ttlB t2 ;; Put C vC ttlC t3) c0 in
  let r4 := Get A since now (state r3) in
  notifications (trace r3) = [OnEvict A]
  ∧ cache (state r3) !! A = None
  ∧ cache (state r3) !! B = Some (entry B vB t2 (ttl_of c0 ttlB))
  ∧ cache (state r3) !! C = Some (entry C vC t3 (ttl_of c0 ttlC))
  ∧ order (state r3) = [C; B]
  ∧ result r4 = zeroValue
  ∧ notifications (trace r4) = [OnMiss A]
  ∧ evictMap (listen (notifications (trace r3 ++ trace r4))) !!! A = 1%nat
  ∧ state r4 = state r3.
Proof.
  intros HAB HAC HBC c0 Hload r3 r4.
  set (c1 := with_index c0 (<[A := entry A vA t1 (ttl_of c0 ttlA)]> ∅) [A]).
  set (c2 := with_index c0 (<[B := entry B vB t2 (ttl_of c0 ttlB)]> (cache c1)) [B; A]).
  set (c3 := with_index c0
               (<[C := entry C vC t3 (ttl_of c0 ttlC)]> (delete A (cache c2))) [C; B]).
  assert (H1 : Put A vA ttlA t1 c0 =
                 (tt, c1, [Mutex Lock; Index Read; Index Read; Index Write;
                           Index Write; Mutex Unlock])).
  { apply Put_room; simpl; [apply lookup_empty|]. rewrite map_size_empty. lia. }
  assert (H2 : Put B vB ttlB t2 c1 =
                 (tt, c2, [Mutex Lock; Index Read; Index Read; Index Write;
                           Index Write; Mutex Unlock])).
  { apply Put_room; simpl.
    - rewrite lookup_insert_ne by done. apply lookup_empty.
    - rewrite map_size_insert_None by apply lookup_empty.
      rewrite map_size_empty. lia. }
  assert (Hsize : size (cache c2) = 2%nat).
  { simpl. rewrite map_size_insert_None.
    - rewrite map_size_insert_None by apply lookup_empty.
      by rewrite map_size_empty.
    - rewrite lookup_insert_ne by done. apply lookup_empty. }
  assert (H3 : Put C vC ttlC t3 c2 =
                 (tt, c3, [Mutex Lock; Index Read; Index Read; Index Read;
                           Index Write; Notify (OnEvict A); Index Write;
                           Index Write; Index Write; Mutex Unlock])).
  { rewrite (Put_full c2 C vC ttlC t3 A).
    - unfold c3. simpl.
      rewrite list_Remove_cons_ne by (by intros ->).
      by rewrite list_Remove_cons_eq, list_Remove_nil.
    - simpl. rewrite !lookup_insert_ne by done. apply lookup_empty.
    - rewrite Hsize. simpl. lia.
    - reflexivity. }
  assert (Hr3 : r3 = (tt, c3,
                 [Mutex Lock; Index Read; Index Read; Index Write; Index Write;
                  Mutex Unlock] ++
                 [Mutex Lock; Index Read; Index Read; Index Write; Index Write;
                  Mutex Unlock] ++
                 [Mutex Lock; Index Read; Index Read; Index Read;
                  Index Write; Notify (OnEvict A); Index Write;
                  Index Write; Index Write; Mutex Unlock])).
  { unfold r3, mbind, M_bind. by rewrite H1, H2, H3. }
  assert (HA : cache c3 !! A = None).
  { simpl. rewrite lookup_insert_ne by done. apply lookup_delete_eq. }
  assert (H4 : r4 = (zeroValue, c3,
                 [Mutex RLock; Index Read; Notify (OnMiss A); Mutex RUnlock;
                  Load A])).
  { unfold r4. rewrite Hr3. unfold state at 1. cbn [fst snd].
    rewrite Get_miss by done. rewrite fetch_eq.
    change (backingStore c3 A) with (backingStore c0 A). by rewrite Hload. }
  rewrite H4, Hr3. unfold state, trace, result. cbn [fst snd].
  split_and!; try done.
  - simpl. rewrite lookup_insert_ne by done.
    rewrite lookup_delete_ne by done. apply lookup_insert_eq.
  - simpl. apply lookup_insert_eq.
  - rewrite evictMap_listen. unfold count. simpl.
    rewrite filter_cons_True by done. by rewrite filter_cons_False.
Qed.

(** ** What the listener hears *)

(** [Put] tells the listener nothing but the eviction it may cause. *)
Lemma Put_notifications c k v ttl now :
  notifications (trace (Put k v ttl now c)) = []
  ∨ ∃ e, last (order c) = Some e ∧ cache c !! k = None
         ∧ notifications (trace (Put k v ttl now c)) = [OnEvict e].
Proof.
  apply (Put_cases c k v ttl now (λ r,
    notifications (trace r) = []
    ∨ ∃ e, last (order c) = Some e ∧ cache c !! k = None
           ∧ notifications (trace r) = [OnEvict e])); eauto.
Qed.

Lemma fetch_notifications_eq c k now :
  notifications (trace (fetchFromBackingStore k now c)) =
    if (backingStore c k).2
    then notifications (trace (Put k (backingStore c k).1 [] now c))
    else [].
Proof. rewrite fetch_eq. by destruct (backingStore c k).2. Qed.

Lemma fetch_notifications c k now :
  notifications (trace (fetchFromBackingStore k now c)) = []
  ∨ ∃ e, notifications (trace (fetchFromBackingStore k now c)) = [OnEvict e].
Proof.
  rewrite fetch_notifications_eq. destruct (backingStore c k).2; [|by left].
  destruct (Put_notifications c k (backingStore c k).1 [] now) as [->|(e & _ & _ & ->)];
    eauto.
Qed.

(** The calls that [Get] makes on the listener, path by path. *)
Lemma Get_notifications c k since now :
  notifications (trace (Get k since now c)) =
    match cache c !! k with
    | None =>
        OnMiss k :: notifications (trace (fetchFromBackingStore k now c))
    | Some item =>
        if expired since item
        then OnHit k :: OnExpire (key item) ::
             notifications (trace (fetchFromBackingStore k now
               (with_index c (delete k (cache c))
                  (list_Remove (key item) (order c)))))
        else [OnHit k]
    end.
Proof.
  destruct (cache c !! k) as [item|] eqn:Hk.
  - destruct (expired since item) eqn:Hx.
    + by erewrite Get_expired.
    + by erewrite Get_live.
  - by rewrite Get_miss.
Qed.

(** C3 (as amended): [Get(k)] calls [OnHit(k)], once, exactly when the map
    has an entry for [k], stale or not, and never for another key; on a
    stale entry the call is followed by [OnExpire]; without an entry
    there is no [OnHit] at all. *)
Theorem Get_OnHit_iff_found c k since now :
  let ns := notifications (trace (Get k since now c)) in
  (∀ k', hitMap (listen ns) !!! k' =
         if decide (k' = k ∧ is_Some (cache c !! k)) then 1%nat else 0%nat)
  ∧ (∀ item, cache c !! k = Some item → expired since item = true →
       ∃ rest, ns = OnHit k :: OnExpire (key item) :: rest)
  ∧ (cache c !! k = None → ∀ k', OnHit k' ∉ ns).
Proof.
  intros ns. unfold ns. rewrite Get_notifications.
  assert (Hfetch : ∀ c' k', count (OnHit k')
            (notifications (trace (fetchFromBackingStore k now c'))) = 0%nat).
  { intros c' k'. destruct (fetch_notifications c' k now) as [->|[e ->]]; [done|].
    rewrite count_cons, count_nil. by rewrite decide_False. }
  split_and!.
  - intros k'. rewrite hitMap_listen. destruct (cache c !! k) as [item|] eqn:Hk.
    + destruct (expired since item).
      * rewrite !count_cons, Hfetch.
        rewrite (decide_False (P := OnExpire _ = _)) by done.
        destruct (decide (k' = k)) as [->|Hne].
        -- rewrite decide_True by done. rewrite decide_True by eauto. done.
        -- rewrite decide_False by congruence. rewrite decide_False by tauto. done.
      * rewrite count_cons, count_nil.
        destruct (decide (k' = k)) as [->|Hne].
        -- rewrite decide_True by done. rewrite decide_True by eauto. done.
        -- rewrite decide_False by congruence. rewrite decide_False by tauto. done.
    + rewrite count_cons, Hfetch. rewrite decide_False by done.
      rewrite decide_False; [done|]. intros [_ [? ?]]. done.
  - intros item -> ->. eauto.
  - intros -> k'. rewrite count_elem_of, count_cons, Hfetch.
    rewrite decide_False by done. auto.
Qed.

(** ** Construction *)

Lemma Put_evicts_when_full c k v ttl now :
  consistent c → capacity c ≤ Z.of_nat (size (cache c)) →
  cache c !! k = None → cache c ≠ ∅ →
  ∃ e, last (order c) = Some e
       ∧ notifications (trace (Put k v ttl now c)) = [OnEvict e].
Proof.
  intros Hc Hcap Hk Hne.
  destruct (last (order c)) as [e|] eqn:He.
  - exists e. split; [done|]. by erewrite Put_full.
  - apply consistent_no_last in He; [|done].
    by apply map_size_empty_inv in He.
Qed.

(** C5 (as amended): [NewLRUCache] checks nothing: for every capacity,
    zero and negative ones too, it returns an empty cache of that capacity
    whose cleanup goroutine runs.  With a capacity of zero or less the
    cache never holds more than one entry, since every [Put] of a new key
    into a cache that is not empty evicts first. *)
Theorem NewLRUCache_accepts_any_capacity cap dttl bs interval :
  let c := NewLRUCache (K:=K) (V:=V) cap dttl bs interval in
  capacity c = cap ∧ cache c = ∅ ∧ order c = [] ∧ stopCleanup c = false
  ∧ defaultTTL c = dttl ∧ cleanupInterval c = interval
  ∧ (cap ≤ 0 → ∀ ops,
       let c' := state (run ops c) in
       (size (cache c') ≤ 1)%nat
       ∧ ∀ k v ttl now, cache c' !! k = None → cache c' ≠ ∅ →
           ∃ e, last (order c') = Some e
                ∧ notifications (trace (Put k v ttl now c')) = [OnEvict e]).
Proof.
  simpl. split_and!; try done.
  intros Hcap ops.
  pose proof (run_bounded cap dttl bs interval ops) as [Hc Hb]. simpl in Hc, Hb.
  pose proof (keeps_run ops (NewLRUCache cap dttl bs interval)) as (Hf & _ & _).
  apply frames_capacity in Hf. simpl in Hf.
  split; [lia|].
  intros k v ttl now Hk Hne. apply Put_evicts_when_full; try done.
  rewrite Hf. lia.
Qed.

(** ** Reads refresh *)

(** C6: a [Get] that finds a live entry of [k] returns its value, sets its
    timestamp to the clock, moves [k] to the front of the list, and leaves
    its value, its TTL and every other entry as they were. *)
Theorem Get_hit_refreshes c k since now item :
  consistent c →
  cache c !! k = Some item →
  expired since item = false →
  let r := Get k since now c in
  result r = value item
  ∧ cache (state r) !! k = Some (entry k (value item) now (expiry item))
  ∧ (∀ k', k' ≠ k → cache (state r) !! k' = cache c !! k')
  ∧ order (state r) = k :: list_Remove k (order c)
  ∧ head (order (state r)) = Some k
  ∧ notifications (trace r) = [OnHit k]
  ∧ loads (trace r) = [].
Proof.
  intros Hc Hk Hx r. unfold r. erewrite Get_live by done.
  unfold result, state, trace. cbn [fst snd with_index cache order].
  assert (Hin : k ∈ order c) by (apply (consistent_elem_of c k Hc); eauto).
  rewrite (consistent_key c k item Hc Hk).
  unfold list_MoveToFront. rewrite decide_True by done.
  split_and!; try done.
  - apply lookup_insert_eq.
  - intros k' Hne. by rewrite lookup_insert_ne.
Qed.

(** ** The backing store *)

Lemma result_mk {A} (a : A) c tr : result (a, c, tr) = a.
Proof. done. Qed.

Lemma state_mk {A} (a : A) c tr : state (a, c, tr) = c.
Proof. done. Qed.

Lemma trace_mk {A} (a : A) c tr : trace (a, c, tr) = tr.
Proof. done. Qed.

Ltac obs := rewrite ?result_mk, ?state_mk, ?trace_mk.

Lemma loads_app tr1 tr2 : loads (tr1 ++ tr2) = loads tr1 ++ loads tr2.
Proof. apply omap_app. Qed.

Lemma Put_loads c k v ttl now : loads (trace (Put k v ttl now c)) = [].
Proof. by apply (Put_cases c k v ttl now (λ r, loads (trace r) = [])). Qed.

(** A [Put] of a key that the map does not hold leaves a fresh entry at
    the front. *)
Lemma Put_absent c k v ttl now :
  cache c !! k = None →
  cache (state (Put k v ttl now c)) !! k = Some (entry k v now (ttl_of c ttl))
  ∧ head (order (state (Put k v ttl now c))) = Some k.
Proof.
  intros Hk.
  apply (Put_cases c k v ttl now (λ r,
    cache (state r) !! k = Some (entry k v now (ttl_of c ttl))
    ∧ head (order (state r)) = Some k)); unfold state; cbn [fst snd].
  - intros item Hi. congruence.
  - intros _ _. simpl. by rewrite lookup_insert_eq.
  - intros e _ _ _. simpl. by rewrite lookup_insert_eq.
  - intros _ _ _. simpl. by rewrite lookup_insert_eq.
Qed.

Lemma fetch_found c k now v :
  backingStore c k = (v, true) →
  fetchFromBackingStore k now c =
    (v, state (Put k v [] now c), Load k :: trace (Put k v [] now c)).
Proof. intros Hb. rewrite fetch_eq, Hb. reflexivity. Qed.

Lemma fetch_not_found c k now :
  (backingStore c k).2 = false →
  fetchFromBackingStore k now c = (zeroValue, c, [Load k]).
Proof. intros Hb. rewrite fetch_eq, Hb. reflexivity. Qed.

Lemma fetch_loads c k now : loads (trace (fetchFromBackingStore k now c)) = [k].
Proof.
  rewrite fetch_eq. destruct (backingStore c k) as [v [|]]; [|done].
  change (k :: loads (trace (Put k v [] now c)) = [k]).
  by rewrite Put_loads.
Qed.

(** The cache as [fetchFromBackingStore] finds it when [Get] calls it:
    [c] itself after a miss, [c] without the entry of [k] after an expiry. *)
Lemma Get_bridge c k since now :
  cache c !! k = None ∨ staleAt since c k = true →
  ∃ cb pre,
    (cb = c ∨ cb = with_index c (delete k (cache c))
                     (list_Remove (elemOf c k) (order c)))
    ∧ (cache c !! k = None → cb = c)
    ∧ cache cb !! k = None
    ∧ loads pre = [] ∧ (∀ k', OnMiss k' ∈ notifications pre → cache c !! k = None)
    ∧ Get k since now c =
        (result (fetchFromBackingStore k now cb),
         state (fetchFromBackingStore k now cb),
         pre ++ trace (fetchFromBackingStore k now cb)).
Proof.
  unfold staleAt, elemOf. intros Htrig.
  destruct (cache c !! k) as [item|] eqn:Hk.
  - destruct Htrig as [|Hx]; [done|].
    eexists _, _. split_and!; [by right|done| | | |by erewrite Get_expired].
    + simpl. apply lookup_delete_eq.
    + done.
    + intros k'. simpl. rewrite !elem_of_cons, elem_of_nil. naive_solver.
  - eexists _, _. split_and!; [by left|done|done| | |by rewrite Get_miss].
    + done.
    + done.
Qed.

(** C7: when [Get] misses or finds a stale entry it calls the loader, once.
    If the loader finds [v], [v] is put in front of the index with the
    default TTL of the cache and returned, and a [Get] that follows returns
    [v] again without [OnMiss], from the cache alone while the entry is
    fresh.  If the loader finds nothing, [Get] returns the zero value and
    the bridge leaves the index as it found it. *)
Theorem backing_store_refill c k since now :
  cache c !! k = None ∨ staleAt since c k = true →
  let r := Get k since now c in
  loads (trace r) = [k]
  ∧ (∀ v, backingStore c k = (v, true) →
       result r = v
       ∧ cache (state r) !! k = Some (entry k v now (defaultTTL c))
       ∧ head (order (state r)) = Some k
       ∧ ∀ since' now',
           let r' := Get k since' now' (state r) in
           result r' = v
           ∧ (∀ k', OnMiss k' ∉ notifications (trace r'))
           ∧ (Sub since' now ≤ defaultTTL c →
                notifications (trace r') = [OnHit k] ∧ loads (trace r') = []))
  ∧ ((backingStore c k).2 = false →
       result r = zeroValue
       ∧ (cache c !! k = None → state r = c)
       ∧ (∀ item, cache c !! k = Some item →
            state r = with_index c (delete k (cache c))
                        (list_Remove (key item) (order c)))
       ∧ ∀ c', (backingStore c' k).2 = false →
               fetchFromBackingStore k now c' = (zeroValue, c', [Load k])).
Proof.
  intros Htrig r.
  destruct (Get_bridge c k since now Htrig)
    as (cb & pre & Hcb & Hmiss & Hk & Hpre & _ & Hget).
  assert (Hbs : backingStore cb = backingStore c) by (by destruct Hcb as [->| ->]).
  assert (Hdt : defaultTTL cb = defaultTTL c) by (by destruct Hcb as [->| ->]).
  unfold r. clear r. rewrite Hget. obs. split_and!.
  - by rewrite loads_app, Hpre, fetch_loads.
  - intros v Hv. rewrite (fetch_found cb k now v) by (by rewrite Hbs). obs.
    destruct (Put_absent cb k v [] now Hk) as [Hentry Hhead].
    simpl ttl_of in Hentry. rewrite Hdt in Hentry.
    split_and!; [done|done|done|].
    intros since' now'. cbv zeta.
    set (c1 := state (Put k v [] now cb)) in *.
    assert (Hbs1 : backingStore c1 = backingStore c).
    { rewrite <- Hbs. apply frames_backingStore. apply keeps_Put. }
    destruct (expired since' (entry k v now (defaultTTL c))) eqn:Hx.
    + erewrite Get_expired by done. cbv zeta. obs.
      set (c2 := with_index c1 (delete k (cache c1)) (list_Remove _ (order c1))).
      assert (Hv2 : backingStore c2 k = (v, true)) by (simpl; by rewrite Hbs1).
      split_and!.
      * by rewrite (fetch_found c2 k now' v).
      * intros k'. rewrite notifications_app, elem_of_app.
        intros [Hin|Hin].
        -- simpl in Hin. rewrite !elem_of_cons, elem_of_nil in Hin. naive_solver.
        -- destruct (fetch_notifications c2 k now') as [Hn|[e Hn]];
             rewrite Hn in Hin.
           ++ by apply elem_of_nil in Hin.
           ++ rewrite elem_of_cons, elem_of_nil in Hin. naive_solver.
      * intros Hfresh. unfold expired in Hx. simpl in Hx.
        apply Z.ltb_lt in Hx. lia.
    + erewrite Get_live by done. obs.
      split_and!; [done| |done].
      intros k'. simpl. rewrite elem_of_cons, elem_of_nil. naive_solver.
  - intros Hnf. rewrite (fetch_not_found cb k now) by (by rewrite Hbs). obs.
    split_and!; [done|done| |].
    + intros item Hi. destruct Hcb as [->| ->]; [congruence|].
      unfold elemOf. by rewrite Hi.
    + intros c'. apply fetch_not_found.
Qed.

(** ** The eager sweep *)

Lemma staleAt_ext now c c' k :
  cache c' !! k = cache c !! k → staleAt now c' k = staleAt now c k.
Proof. unfold staleAt. by intros ->. Qed.

Lemma filter_ext_elem (P Q : K → Prop) `{!∀ x, Decision (P x), !∀ x, Decision (Q x)}
    (l : list K) :
  (∀ x, x ∈ l → P x ↔ Q x) → filter P l = filter Q l.
Proof.
  induction l as [|x l IH]; intros Hpq; [done|].
  assert (Hl : filter P l = filter Q l).
  { apply IH. intros y Hy. apply Hpq. by right. }
  destruct (decide (P x)) as [Hp|Hp].
  - rewrite !filter_cons_True; [by rewrite Hl|by apply Hpq; [left|]|done].
  - rewrite !filter_cons_False; [done| |done].
    intros Hq. apply Hp, Hpq; [left|done].
Qed.

Lemma filter_all (P : K → Prop) `{!∀ x, Decision (P x)} (l : list K) :
  (∀ x, x ∈ l → P x) → filter P l = l.
Proof.
  induction l as [|x l IH]; intros Hp; [done|].
  rewrite filter_cons_True by (apply Hp; left).
  rewrite IH; [done|]. intros y Hy. apply Hp. by right.
Qed.

Lemma state_cleanupEntry c now k :
  state (cleanupEntry now k c) =
    if staleAt now c k
    then with_index c (delete k (cache c)) (list_Remove (elemOf c k) (order c))
    else c.
Proof. rewrite cleanupEntry_eq. by destruct (staleAt now c k). Qed.

Lemma notifications_cleanupEntry c now k :
  notifications (trace (cleanupEntry now k c)) =
    if staleAt now c k then [OnExpire k] else [].
Proof. rewrite cleanupEntry_eq. by destruct (staleAt now c k). Qed.

Lemma loads_cleanupEntry c now k : loads (trace (cleanupEntry now k c)) = [].
Proof. rewrite cleanupEntry_eq. by destruct (staleAt now c k). Qed.

(** The loop over the map, whatever order the runtime walks it in. *)
Lemma rangeCache_spec now visit c :
  NoDup visit →
  (∀ k item, cache c !! k = Some item → key item = k) →
  let r := rangeCache now visit c in
  (∀ x, cache (state r) !! x =
        if decide (x ∈ visit ∧ staleAt now c x = true) then None else cache c !! x)
  ∧ order (state r) =
      filter (λ x, ¬ (x ∈ visit ∧ staleAt now c x = true)) (order c)
  ∧ notifications (trace r) =
      OnExpire <$> filter (λ x, staleAt now c x = true) visit
  ∧ loads (trace r) = [].
Proof.
  intros Hnd. revert c. induction Hnd as [|k rest Hk Hnd IH]; intros c Hkey r.
  - unfold r. cbn [rangeCache]. unfold mret, M_ret. obs.
    split_and!; [|symmetry|done|done].
    + intros x. rewrite decide_False; [done|]. intros [Hx _]. by apply elem_of_nil in Hx.
    + apply filter_all. intros x _ [Hx _]. by apply elem_of_nil in Hx.
  - set (c1 := state (cleanupEntry now k c)).
    assert (Hother : ∀ x, x ≠ k → cache c1 !! x = cache c !! x).
    { intros x Hx. unfold c1. rewrite state_cleanupEntry.
      destruct (staleAt now c k); [|done]. simpl. by rewrite lookup_delete_ne. }
    assert (Hstale : ∀ x, x ≠ k → staleAt now c1 x = staleAt now c x).
    { intros x Hx. apply staleAt_ext. by apply Hother. }
    assert (Helem : elemOf c k = k).
    { unfold elemOf. destruct (cache c !! k) as [item|] eqn:Hi; [|done].
      by apply Hkey. }
    destruct (IH c1) as (Hcache & Horder & Hnotes & Hloads).
    { intros x item. unfold c1. rewrite state_cleanupEntry.
      destruct (staleAt now c k); [|apply Hkey].
      simpl. rewrite lookup_delete_Some. intros [_ Hx]. by apply Hkey. }
    unfold r. cbn [rangeCache].
    rewrite state_bind, trace_bind, notifications_app, loads_app.
    fold c1. split_and!.
    + intros x. rewrite Hcache. destruct (decide (x = k)) as [->|Hne].
      * rewrite decide_False by (by intros [? _]).
        unfold c1. rewrite state_cleanupEntry.
        destruct (staleAt now c k) eqn:Hs.
        -- rewrite decide_True by (split; [left|done]). simpl. apply lookup_delete_eq.
        -- rewrite decide_False; [done|]. intros [_ ?]. done.
      * rewrite Hother, Hstale by done.
        repeat case_decide; try done; exfalso; rewrite elem_of_cons in *;
          naive_solver.
    + assert (Ho : order c1 = if staleAt now c k
                              then list_Remove k (order c) else order c).
      { unfold c1. rewrite (state_cleanupEntry c now k), Helem.
        by destruct (staleAt now c k). }
      rewrite Horder, Ho. destruct (staleAt now c k) eqn:Hs.
      * unfold list_Remove. rewrite list_filter_filter.
        apply filter_ext_elem. intros x _. rewrite elem_of_cons.
        destruct (decide (x = k)) as [->|Hne]; [naive_solver|].
        rewrite Hstale by done. naive_solver.
      * apply filter_ext_elem. intros x _. rewrite elem_of_cons.
        destruct (decide (x = k)) as [->|Hne].
        -- split; [|naive_solver]. intros _ [_ ?]. congruence.
        -- rewrite Hstale by done. naive_solver.
    + rewrite Hnotes, notifications_cleanupEntry.
      assert (Hrest : filter (λ x, staleAt now c1 x = true) rest
                      = filter (λ x, staleAt now c x = true) rest).
      { apply filter_ext_elem. intros x Hx. rewrite Hstale; [done|].
        by intros ->. }
      rewrite Hrest. destruct (staleAt now c k) eqn:Hs.
      * by rewrite filter_cons_True.
      * rewrite filter_cons_False by congruence. done.
    + by rewrite Hloads, loads_cleanupEntry.
Qed.

Lemma cleanupExpiredEntries_eq c now visit :
  cleanupExpiredEntries now visit c =
    (tt, state (rangeCache now visit c),
     Mutex Lock :: trace (rangeCache now visit c) ++ [Mutex Unlock]).
Proof.
  unfold cleanupExpiredEntries, mbind, M_bind, mutex, emit, state, trace.
  by destruct (rangeCache now visit c) as [[[] c1] t1].
Qed.

Lemma count_OnExpire_fmap k (l : list K) :
  NoDup l →
  count (OnExpire k) (OnExpire <$> l) = if decide (k ∈ l) then 1%nat else 0%nat.
Proof.
  induction 1 as [|x l Hx Hnd IH]; [done|].
  rewrite fmap_cons, count_cons, IH. destruct (decide (x = k)) as [->|Hne].
  - rewrite decide_True by done. rewrite decide_False by done.
    by rewrite decide_True by left.
  - rewrite decide_False by congruence.
    destruct (decide (k ∈ l)) as [Hin|Hout].
    + by rewrite decide_True by (by right).
    + rewrite decide_False; [done|]. rewrite elem_of_cons. naive_solver.
Qed.

Lemma expired_iff now item :
  minDuration ≤ now - timestamp item ≤ maxDuration →
  expired now item = true ↔ now - timestamp item > expiry item.
Proof.
  intros Hrange. unfold expired, Sub. rewrite Z.ltb_lt. lia.
Qed.

(** C8: one run of [cleanupExpiredEntries] removes the stale entries and
    only those, calls [OnExpire] once for each of them and for nothing
    else, and leaves the other entries, and the order among them, as they
    were; no loader and no [Get] is involved.  So an entry whose TTL is
    below the cleanup interval is expired by the first sweep that runs an
    interval or more after its timestamp. *)
Theorem sweep_removes_exactly_stale c now visit :
  consistent c →
  NoDup visit →
  (∀ k, k ∈ visit ↔ is_Some (cache c !! k)) →
  let r := cleanupExpiredEntries now visit c in
  let ns := notifications (trace r) in
  (∀ k item, cache c !! k = Some item → expired now item = true →
     cache (state r) !! k = None ∧ expireMap (listen ns) !!! k = 1%nat)
  ∧ (∀ k item, cache c !! k = Some item → expired now item = false →
       cache (state r) !! k = Some item ∧ expireMap (listen ns) !!! k = 0%nat)
  ∧ (∀ k, cache c !! k = None →
       cache (state r) !! k = None ∧ expireMap (listen ns) !!! k = 0%nat)
  ∧ order (state r) = filter (λ k, staleAt now c k = false) (order c)
  ∧ (∀ n, n ∈ ns → ∃ k, n = OnExpire k)
  ∧ loads (trace r) = []
  ∧ frames c (state r)
  ∧ (∀ k item, cache c !! k = Some item →
       expiry item < cleanupInterval c →
       cleanupInterval c ≤ Sub now (timestamp item) →
       cache (state r) !! k = None ∧ expireMap (listen ns) !!! k = 1%nat)
  ∧ (∀ item, minDuration ≤ now - timestamp item ≤ maxDuration →
       expired now item = true ↔ now - timestamp item > expiry item).
Proof.
  intros Hc Hnd Hvisit r ns.
  destruct (rangeCache_spec now visit c Hnd (λ k item, consistent_key c k item Hc))
    as (Hcache & Horder & Hnotes & Hloads).
  assert (Hstate : state r = state (rangeCache now visit c)).
  { unfold r. by rewrite cleanupExpiredEntries_eq. }
  assert (Hns : ns = OnExpire <$> filter (λ x, staleAt now c x = true) visit).
  { unfold ns, r. rewrite cleanupExpiredEntries_eq. obs.
    change (Mutex Lock :: ?t) with ([Mutex Lock] ++ t).
    rewrite !notifications_app, Hnotes. simpl. by rewrite app_nil_r. }
  assert (Hcount : ∀ k, expireMap (listen ns) !!! k =
            if decide (k ∈ visit ∧ staleAt now c k = true) then 1%nat else 0%nat).
  { intros k. rewrite expireMap_listen, Hns.
    rewrite count_OnExpire_fmap by (by apply NoDup_filter).
    apply decide_ext. rewrite list_elem_of_filter. tauto. }
  assert (Hstale : ∀ k item, cache c !! k = Some item → expired now item = true →
            cache (state r) !! k = None ∧ expireMap (listen ns) !!! k = 1%nat).
  { intros k item Hk Hx.
    assert (k ∈ visit ∧ staleAt now c k = true) as Hs.
    { split; [apply Hvisit; eauto|]. unfold staleAt. by rewrite Hk. }
    rewrite Hstate, Hcache, Hcount. by rewrite !decide_True. }
  split_and!.
  - exact Hstale.
  - intros k item Hk Hx.
    assert (¬ (k ∈ visit ∧ staleAt now c k = true)) as Hs.
    { unfold staleAt. rewrite Hk, Hx. by intros [_ ?]. }
    rewrite Hstate, Hcache, Hcount. by rewrite !decide_False.
  - intros k Hk.
    assert (¬ (k ∈ visit ∧ staleAt now c k = true)) as Hs.
    { unfold staleAt. rewrite Hk. by intros [_ ?]. }
    rewrite Hstate, Hcache, Hcount. by rewrite !decide_False.
  - rewrite Hstate, Horder. apply filter_ext_elem. intros x _.
    destruct (staleAt now c x) eqn:Hs; [|naive_solver].
    split; [|done]. intros Hno. exfalso. apply Hno. split; [|done].
    apply Hvisit. unfold staleAt in Hs. destruct (cache c !! x); [eauto|done].
  - intros n. rewrite Hns, list_elem_of_fmap. naive_solver.
  - unfold r. rewrite cleanupExpiredEntries_eq. obs.
    change (Mutex Lock :: ?t) with ([Mutex Lock] ++ t).
    by rewrite !loads_app, Hloads.
  - apply keeps_cleanupExpiredEntries.
  - intros k item Hk Httl Hage. apply (Hstale k item Hk).
    unfold expired. apply Z.ltb_lt. lia.
  - apply expired_iff.
Qed.

(** ** Removal *)

(** C10: [Remove(k)] calls no method of the listener and no loader,
    whether [k] is in the cache or not; it deletes the entry of [k] and
    touches no other. *)
Theorem Remove_is_silent c k :
  let r := Remove k c in
  notifications (trace r) = []
  ∧ loads (trace r) = []
  ∧ cache (state r) !! k = None
  ∧ (∀ k', k' ≠ k → cache (state r) !! k' = cache c !! k')
  ∧ (∀ n : Notification K, n ∉ notifications (trace r)).
Proof.
  intros r. unfold r. rewrite Remove_eq.
  destruct (cache c !! k) as [item|] eqn:Hk; obs; cbn [cache with_index].
  - split_and!; [done|done|apply lookup_delete_eq| |].
    + intros k' Hne. by rewrite lookup_delete_ne.
    + intros n Hn. by apply elem_of_nil in Hn.
  - split_and!; [done|done|done|done|].
    intros n Hn. by apply elem_of_nil in Hn.
Qed.

(** ** The lock discipline *)

Lemma Put_guarded c k v ttl now : guarded Free (trace (Put k v ttl now c)) = true.
Proof. by apply (Put_cases c k v ttl now (λ r, guarded Free (trace r) = true)). Qed.

Lemma Remove_guarded c k : guarded Free (trace (Remove k c)) = true.
Proof. rewrite Remove_eq. by destruct (cache c !! k). Qed.

Lemma rangeCache_guarded now visit c tr :
  guarded Exclusive (trace (rangeCache now visit c) ++ tr) = guarded Exclusive tr.
Proof.
  revert c. induction visit as [|k rest IH]; intros c; [done|].
  cbn [rangeCache]. rewrite trace_bind, <- app_assoc, cleanupEntry_eq.
  destruct (staleAt now c k); obs; simpl; apply IH.
Qed.

Lemma cleanupExpiredEntries_guarded c now visit :
  guarded Free (trace (cleanupExpiredEntries now visit c)) = true.
Proof.
  rewrite cleanupExpiredEntries_eq. obs. simpl. by rewrite rangeCache_guarded.
Qed.

(** [Get] is the one method that writes with the read lock only. *)
Lemma Get_found_unguarded c k since now item :
  cache c !! k = Some item → guarded Free (trace (Get k since now c)) = false.
Proof.
  intros Hk. destruct (expired since item) eqn:Hx.
  - by erewrite Get_expired.
  - by erewrite Get_live.
Qed.

(** ** [Close] *)

Lemma Close_done c : Close true c = Some (true, c).
Proof. reflexivity. Qed.

Lemma Close_first c :
  stopCleanup c = false →
  ∃ c', Close false c = Some (true, c') ∧ stopCleanup c' = true
        ∧ cache c' = cache c ∧ order c' = order c.
Proof.
  intros Hopen. unfold Close, Once_Do, close_stopCleanup. rewrite Hopen. eauto.
Qed.

(** While every open [sync.Once] goes with an open channel, [Close] does
    not panic; and it keeps things so. *)
Lemma Close_never_panics once c :
  (once = false → stopCleanup c = false) →
  ∃ c', Close once c = Some (true, c').
Proof.
  intros Hinv. destruct once; [by eexists|].
  destruct (Close_first c) as (c' & -> & _); eauto.
Qed.

Lemma startCleanup_tick c now visit :
  startCleanup (TickerC now visit) c =
    (true, state (cleanupExpiredEntries now visit c),
     trace (cleanupExpiredEntries now visit c)).
Proof.
  unfold startCleanup, mbind, M_bind, mret, M_ret, state, trace.
  destruct (cleanupExpiredEntries now visit c) as [[[] c1] t1].
  by rewrite app_nil_r.
Qed.


(** * Further properties *)

(** ** The index in every reachable state *)

(** X1: whatever sequence of [Put], [Get], [Remove] and sweeps has run on
    a cache since [NewLRUCache], the list holds each key of the map once
    and nothing else, every item sits under its own key, and capacity,
    default TTL, loader, interval and stop channel are those given at
    construction. *)
Theorem index_well_formed cap dttl bs interval (ops : list (Op K V)) :
  let c0 := NewLRUCache cap dttl bs interval in
  let c := state (run ops c0) in
  NoDup (order c)
  ∧ (∀ k, k ∈ order c ↔ is_Some (cache c !! k))
  ∧ (∀ k item, cache c !! k = Some item → key item = k)
  ∧ size (cache c) = length (order c)
  ∧ capacity c = cap ∧ defaultTTL c = dttl ∧ cleanupInterval c = interval
  ∧ backingStore c = backingStore c0 ∧ stopCleanup c = false.
Proof.
  intros c0 c.
  destruct (keeps_run ops c0) as (Hf & Hc & _).
  specialize (Hc (consistent_new _ _ _ _)). fold c in Hf, Hc.
  pose proof (consistent_size c Hc) as Hsize.
  destruct Hc as (Hnd & Hdom & Hkey).
  rewrite Hf. by split_and!.
Qed.

(** ** Writes and the reads that follow *)

(** The entry that [Put] leaves under its key. *)
Lemma Put_entry c k v ttl now :
  ∃ item', cache (state (Put k v ttl now c)) !! k = Some item'
           ∧ value item' = v ∧ timestamp item' = now
           ∧ expiry item' = ttl_of c ttl.
Proof.
  apply (Put_cases c k v ttl now (λ r,
    ∃ item', cache (state r) !! k = Some item'
             ∧ value item' = v ∧ timestamp item' = now
             ∧ expiry item' = ttl_of c ttl)); intros; obs; simpl;
    eexists; (split; [apply lookup_insert_eq|done]).
Qed.

Lemma ttl_of_frames c c' ttl : frames c c' → ttl_of c' ttl = ttl_of c ttl.
Proof. intros Hf. destruct ttl; [|done]. simpl. by apply frames_defaultTTL. Qed.

Lemma Put_then_Get_aux c k v ttl now since now' :
  Sub since now ≤ ttl_of c ttl →
  result (Get k since now' (state (Put k v ttl now c))) = v
  ∧ trace (Get k since now' (state (Put k v ttl now c)))
    = [Mutex RLock; Index Read; Notify (OnHit k); Index Write; Index Write;
       Mutex RUnlock]
  ∧ size (cache (state (Get k since now' (state (Put k v ttl now c)))))
    = size (cache (state (Put k v ttl now c))).
Proof.
  intros Hfresh.
  destruct (Put_entry c k v ttl now) as (item' & Hk & Hv & Ht & Hx).
  assert (Hlive : expired since item' = false).
  { unfold expired. rewrite Ht, Hx. apply Z.ltb_ge. done. }
  erewrite Get_live by done. obs. simpl.
  split_and!; [done|done|].
  apply map_size_insert_Some. eauto.
Qed.

(** X2: a [Get] that follows a [Put] of the same key no later than the TTL
    of that [Put] returns the value written, from the cache: the listener
    hears [OnHit] only and the loader is not called. *)
Theorem Put_then_Get c k v ttl now since now' :
  Sub since now ≤ ttl_of c ttl →
  let c1 := state (Put k v ttl now c) in
  let r := Get k since now' c1 in
  result r = v
  ∧ notifications (trace r) = [OnHit k]
  ∧ loads (trace r) = []
  ∧ size (cache (state r)) = size (cache c1).
Proof.
  intros Hfresh c1 r.
  destruct (Put_then_Get_aux c k v ttl now since now' Hfresh) as (Hr & Ht & Hs).
  fold c1 in Hr, Ht, Hs. fold r in Hr, Ht, Hs.
  by rewrite Ht.
Qed.

(** X3: a second [Put] of a key overwrites the first: it adds no entry,
    evicts nothing, tells the listener nothing, leaves the other entries
    alone, and a read within the new TTL returns the new value. *)
Theorem Put_twice c k v1 v2 ttl1 ttl2 t1 t2 :
  let c1 := state (Put k v1 ttl1 t1 c) in
  let r2 := Put k v2 ttl2 t2 c1 in
  size (cache (state r2)) = size (cache c1)
  ∧ notifications (trace r2) = []
  ∧ (∀ k', k' ≠ k → cache (state r2) !! k' = cache c1 !! k')
  ∧ (∀ since now, Sub since t2 ≤ ttl_of c ttl2 →
       result (Get k since now (state r2)) = v2).
Proof.
  intros c1 r2.
  destruct (Put_entry c k v1 ttl1 t1) as (item1 & Hk & _).
  fold c1 in Hk.
  assert (Hf : frames c c1) by apply keeps_Put.
  split_and!.
  - unfold r2. erewrite Put_found by done. obs. simpl.
    apply map_size_insert_Some. eauto.
  - unfold r2. by erewrite Put_found.
  - intros k' Hne. unfold r2. erewrite Put_found by done. obs. simpl.
    by rewrite lookup_insert_ne.
  - intros since now Hfresh.
    rewrite <- (ttl_of_frames c c1 ttl2 Hf) in Hfresh.
    by destruct (Put_then_Get_aux c1 k v2 ttl2 t2 since now Hfresh).
Qed.


(** ** Inserting a new key *)

Lemma list_Remove_last (l : list K) e :
  NoDup l → last l = Some e → ∃ l', l = l' ++ [e] ∧ list_Remove e l = l'.
Proof.
  intros Hnd [l' ->]%last_Some. exists l'. split; [done|].
  apply NoDup_app in Hnd as (_ & Hdisj & _).
  unfold list_Remove. rewrite filter_app.
  rewrite filter_cons_False by (by intros ?). simpl.
  rewrite app_nil_r. apply filter_all.
  intros x Hx ->. apply (Hdisj e Hx). left.
Qed.

(** X4: a [Put] of a key that the cache does not hold.  With room left it
    evicts nothing and the cache grows by one.  Without room the victim is
    the entry at the back of the list, the least recently touched one,
    whether it is stale or not; [OnEvict] is called for it and for nothing
    else, and the number of entries stays.  Either way the new entry
    stands at the front, the rest keep their order, and every other entry
    is as it was. *)
Theorem Put_new_key c k v ttl now :
  consistent c →
  cache c !! k = None →
  let r := Put k v ttl now c in
  cache (state r) !! k = Some (entry k v now (ttl_of c ttl))
  ∧ head (order (state r)) = Some k
  ∧ consistent (state r)
  ∧ (Z.of_nat (size (cache c)) < capacity c →
       notifications (trace r) = []
       ∧ order (state r) = k :: order c
       ∧ size (cache (state r)) = S (size (cache c))
       ∧ ∀ k', k' ≠ k → cache (state r) !! k' = cache c !! k')
  ∧ (capacity c ≤ Z.of_nat (size (cache c)) → cache c ≠ ∅ →
       ∃ e rest, order c = rest ++ [e]
         ∧ notifications (trace r) = [OnEvict e]
         ∧ order (state r) = k :: rest
         ∧ cache (state r) !! e = None
         ∧ size (cache (state r)) = size (cache c)
         ∧ ∀ k', k' ≠ k → k' ≠ e → cache (state r) !! k' = cache c !! k').
Proof.
  intros Hc Hk r.
  destruct (Put_absent c k v ttl now Hk) as [Hentry Hhead].
  split_and!; [done|done|by apply keeps_Put| |].
  - intros Hroom. unfold r. rewrite Put_room by done. obs. simpl.
    split_and!; [done|done|by apply map_size_insert_None|].
    intros k' Hne. by rewrite lookup_insert_ne.
  - intros Hfull Hne.
    destruct (last (order c)) as [e|] eqn:He.
    + destruct (list_Remove_last (order c) e) as (rest & Ho & Hrm);
        [apply Hc|done|].
      assert (Hek : e ≠ k).
      { intros ->. apply consistent_last in He as [? ?]; congruence. }
      exists e, rest. unfold r. erewrite Put_full by done. obs. simpl.
      rewrite Hrm. split_and!; [done|done|done| | |].
      * rewrite lookup_insert_ne by done. apply lookup_delete_eq.
      * rewrite map_size_insert_None by (rewrite lookup_delete_None; by right).
        rewrite map_size_delete_Some by (by apply consistent_last).
        destruct (size (cache c)) eqn:Hs; [|done].
        by apply map_size_empty_inv in Hs.
      * intros k' Hk' He'. rewrite lookup_insert_ne by done.
        by rewrite lookup_delete_ne.
    + apply consistent_no_last in He; [|done].
      by apply map_size_empty_inv in He.
Qed.

(** ** Removing *)

Lemma with_index_twice c m l m' l' :
  with_index (with_index c m l) m' l' = with_index c m' l'.
Proof. reflexivity. Qed.

(** X5: [Remove] of a key that the cache does not hold leaves the cache
    exactly as it was, and a [Remove] undoes the [Put] of a new key for
    which there was room: map, list and all are back. *)
Theorem Remove_undoes_Put c k v ttl now :
  consistent c →
  cache c !! k = None →
  state (Remove k c) = c
  ∧ (Z.of_nat (size (cache c)) < capacity c →
       state (Remove k (state (Put k v ttl now c))) = c).
Proof.
  intros Hc Hk. split.
  - rewrite Remove_eq, Hk. by obs.
  - intros Hroom. rewrite Put_room by done. obs.
    rewrite Remove_eq. cbn [cache with_index order]. rewrite lookup_insert_eq. obs.
    cbn [cache order key entry]. rewrite with_index_twice.
    rewrite delete_insert_eq, delete_id by done.
    rewrite list_Remove_cons_eq, list_Remove_absent.
    + apply with_index_id.
    + rewrite (consistent_elem_of c k Hc), Hk. by intros [? ?].
Qed.

(** X6: after [Remove(k)] the key is gone for [Get]: a [Get(k)] is a miss,
    heard as [OnMiss(k)] and never as [OnHit], that asks the loader once
    and returns what the loader has, or the zero value. *)
Theorem Remove_then_Get c k since now :
  let c1 := state (Remove k c) in
  let r := Get k since now c1 in
  cache c1 !! k = None
  ∧ (∃ rest, notifications (trace r) = OnMiss k :: rest
             ∧ ∀ k', (OnHit k' ∉ rest) ∧ (OnExpire k' ∉ rest))
  ∧ loads (trace r) = [k]
  ∧ result r = (if (backingStore c k).2 then (backingStore c k).1 else zeroValue).
Proof.
  intros c1 r.
  assert (Hk : cache c1 !! k = None).
  { unfold c1. rewrite Remove_eq. destruct (cache c !! k) eqn:Hk; obs; [|done].
    simpl. apply lookup_delete_eq. }
  assert (Hbs : backingStore c1 = backingStore c).
  { apply frames_backingStore, keeps_Remove. }
  unfold r. rewrite Get_miss by done. cbv zeta. obs.
  split_and!; [done| | |].
  - exists (notifications (trace (fetchFromBackingStore k now c1))).
    split; [reflexivity|]. intros k'.
    destruct (fetch_notifications c1 k now) as [->|[e ->]].
    + split; apply not_elem_of_nil.
    + rewrite !elem_of_cons, !elem_of_nil. naive_solver.
  - change (loads (Mutex RLock :: Index Read :: Notify (OnMiss k)
                   :: Mutex RUnlock :: ?t)) with (loads t).
    apply fetch_loads.
  - rewrite fetch_eq, Hbs. by destruct (backingStore c k).2.
Qed.

(** ** Recency *)

(** X7: a key that was just touched, by a [Get] that hit or by a [Put] on
    its entry, is at the front, and while the cache holds another entry it
    is not the one that the next eviction takes: the back of the list is
    the back of the list without it. *)
Theorem touched_is_not_next_victim c k item since now v ttl :
  consistent c →
  cache c !! k = Some item →
  (2 ≤ size (cache c))%nat →
  (expired since item = false →
     head (order (state (Get k since now c))) = Some k
     ∧ last (order (state (Get k since now c))) = last (list_Remove k (order c))
     ∧ last (order (state (Get k since now c))) ≠ Some k)
  ∧ head (order (state (Put k v ttl now c))) = Some k
  ∧ last (order (state (Put k v ttl now c))) = last (list_Remove k (order c))
  ∧ last (order (state (Put k v ttl now c))) ≠ Some k.
Proof.
  intros Hc Hk Hsize.
  assert (Hin : k ∈ order c) by (apply (consistent_elem_of c k Hc); eauto).
  assert (Hkey : key item = k) by (by apply (consistent_key c)).
  assert (Hrest : ∃ x l, list_Remove k (order c) = x :: l).
  { destruct (list_Remove k (order c)) as [|x l] eqn:Hl; [|eauto].
    exfalso. rewrite (consistent_size c Hc) in Hsize.
    destruct Hc as (Hnd & _ & _).
    destruct (order c) as [|a [|b o]] eqn:Ho; simpl in Hsize; [lia|lia|].
    assert (a ≠ b) as Hab.
    { apply NoDup_cons in Hnd as [Ha _]. intros ->. apply Ha. left. }
    assert (a ∈ list_Remove k (a :: b :: o) ∨ b ∈ list_Remove k (a :: b :: o)) as Hor.
    { rewrite !elem_of_list_Remove. destruct (decide (a = k)) as [->|].
      - right. split; [right; left|congruence].
      - left. split; [left|done]. }
    rewrite Hl in Hor. destruct Hor as [Hor|Hor]; by apply elem_of_nil in Hor. }
  destruct Hrest as (x & l & Hl).
  assert (Hlast : last (k :: list_Remove k (order c)) = last (list_Remove k (order c))).
  { rewrite Hl. apply last_cons_cons. }
  assert (Hne : last (list_Remove k (order c)) ≠ Some k).
  { intros Hk'%last_Some_elem_of. apply elem_of_list_Remove in Hk'. naive_solver. }
  assert (Hmove : list_MoveToFront (key item) (order c) = k :: list_Remove k (order c)).
  { rewrite Hkey. unfold list_MoveToFront. by rewrite decide_True. }
  split_and!.
  - intros Hx. erewrite Get_live by done. obs. simpl. rewrite Hmove.
    split_and!; [done|done|]. by rewrite Hlast.
  - erewrite Put_found by done. obs. simpl. by rewrite Hmove.
  - erewrite Put_found by done. obs. simpl. by rewrite Hmove.
  - erewrite Put_found by done. obs. simpl. rewrite Hmove. by rewrite Hlast.
Qed.


(** ** Expiry on read *)

Lemma count_OnExpire_fetch c k k' now :
  count (OnExpire k') (notifications (trace (fetchFromBackingStore k now c))) = 0%nat
  ∧ count (OnHit k') (notifications (trace (fetchFromBackingStore k now c))) = 0%nat
  ∧ count (OnMiss k') (notifications (trace (fetchFromBackingStore k now c))) = 0%nat.
Proof.
  destruct (fetch_notifications c k now) as [->|[e ->]]; [done|].
  rewrite !count_cons, !count_nil. by rewrite !decide_False.
Qed.

Lemma missMap_listen ns k : missMap (listen ns) !!! k = count (OnMiss k) ns.
Proof.
  unfold listen. destruct (counters_foldl ns NewCountingCacheListener k)
    as (_ & -> & _ & _). simpl. by rewrite lookup_total_empty.
Qed.

(** A [Get] that comes later than the TTL after the [Put] of its key. *)
Lemma Put_then_late_Get_aux c k v ttl now since now' :
  consistent c →
  ttl_of c ttl < Sub since now →
  let c1 := state (Put k v ttl now c) in
  let r := Get k since now' c1 in
  let ns := notifications (trace r) in
  (∃ rest, ns = OnHit k :: OnExpire k :: rest)
  ∧ expireMap (listen ns) !!! k = 1%nat
  ∧ hitMap (listen ns) !!! k = 1%nat
  ∧ missMap (listen ns) !!! k = 0%nat
  ∧ loads (trace r) = [k]
  ∧ result r = (if (backingStore c k).2 then (backingStore c k).1 else zeroValue)
  ∧ ((backingStore c k).2 = false → cache (state r) !! k = None).
Proof.
  intros Hc Hlate c1 r ns.
  destruct (Put_entry c k v ttl now) as (item' & Hk & Hv & Ht & Hx).
  fold c1 in Hk.
  assert (Hc1 : consistent c1) by (by apply keeps_Put).
  assert (Hkey : key item' = k) by (by apply (consistent_key c1)).
  assert (Hbs : backingStore c1 = backingStore c).
  { apply frames_backingStore, keeps_Put. }
  assert (Hstale : expired since item' = true).
  { unfold expired. rewrite Ht, Hx. by apply Z.ltb_lt. }
  set (c2 := with_index c1 (delete k (cache c1)) (list_Remove k (order c1))).
  assert (Hget : Get k since now' c1 =
    (result (fetchFromBackingStore k now' c2),
     state (fetchFromBackingStore k now' c2),
     [Mutex RLock; Index Read; Notify (OnHit k); Notify (OnExpire k);
      Index Write; Index Write; Mutex RUnlock]
     ++ trace (fetchFromBackingStore k now' c2))).
  { erewrite Get_expired by done. by rewrite Hkey. }
  assert (Hns : ns = OnHit k :: OnExpire k
                     :: notifications (trace (fetchFromBackingStore k now' c2))).
  { unfold ns, r. rewrite Hget. obs. by rewrite notifications_app. }
  destruct (count_OnExpire_fetch c2 k k now') as (Hce & Hch & Hcm).
  unfold r. rewrite Hget. obs. split_and!.
  - eauto.
  - rewrite Hns, expireMap_listen, !count_cons, Hce.
    rewrite (decide_False (P := OnHit k = OnExpire k)) by done.
    by rewrite decide_True.
  - rewrite Hns, hitMap_listen, !count_cons, Hch.
    rewrite (decide_False (P := OnExpire k = OnHit k)) by done.
    by rewrite decide_True.
  - rewrite Hns, missMap_listen, !count_cons, Hcm.
    by rewrite !decide_False.
  - by rewrite loads_app, fetch_loads.
  - rewrite fetch_eq. change (backingStore c2) with (backingStore c1).
    rewrite Hbs. by destruct (backingStore c k).2.
  - intros Hnf. rewrite fetch_not_found.
    + obs. simpl. apply lookup_delete_eq.
    + change (backingStore c2) with (backingStore c1). by rewrite Hbs.
Qed.

(** X8: a [Get] that comes later than the TTL after the [Put] of its key
    does not return what was written: it is heard as [OnHit] and then
    [OnExpire], once each and without [OnMiss], asks the loader once, and
    returns what the loader has or the zero value; if the loader has
    nothing the key is out of the cache. *)
Theorem Put_then_late_Get c k v ttl now since now' :
  consistent c →
  ttl_of c ttl < Sub since now →
  let c1 := state (Put k v ttl now c) in
  let r := Get k since now' c1 in
  let ns := notifications (trace r) in
  (∃ rest, ns = OnHit k :: OnExpire k :: rest)
  ∧ expireMap (listen ns) !!! k = 1%nat
  ∧ hitMap (listen ns) !!! k = 1%nat
  ∧ missMap (listen ns) !!! k = 0%nat
  ∧ loads (trace r) = [k]
  ∧ result r = (if (backingStore c k).2 then (backingStore c k).1 else zeroValue)
  ∧ ((backingStore c k).2 = false → cache (state r) !! k = None).
Proof. apply Put_then_late_Get_aux. Qed.

(** X9: the TTL handed to [Put] decides, not the default of the cache: a
    read up to [t] after a [Put] with TTL [t] is a hit on the value
    written, a read later than that finds the entry expired, whatever the
    default TTL is. *)
Theorem ttl_override c k v t more now since now' :
  consistent c →
  let c1 := state (Put k v (t :: more) now c) in
  let r := Get k since now' c1 in
  (Sub since now ≤ t →
     result r = v ∧ notifications (trace r) = [OnHit k])
  ∧ (t < Sub since now →
       (∃ rest, notifications (trace r) = OnHit k :: OnExpire k :: rest)
       ∧ result r
         = (if (backingStore c k).2 then (backingStore c k).1 else zeroValue)).
Proof.
  intros Hc c1 r. split.
  - intros Hfresh.
    destruct (Put_then_Get_aux c k v (t :: more) now since now' Hfresh)
      as (Hr & Ht & _).
    fold c1 in Hr, Ht. fold r in Hr, Ht. by rewrite Ht.
  - intros Hlate.
    destruct (Put_then_late_Get_aux c k v (t :: more) now since now' Hc Hlate)
      as (Hns & _ & _ & _ & _ & Hr & _).
    done.
Qed.

(** ** Sliding expiry *)

(** X10: reads keep an entry alive.  While each [Get] of a key comes no
    later than the TTL after the one before it (the first no later than
    the TTL after the timestamp of the entry), every one of them is a hit
    that returns the value of the entry, however long the whole series
    lasts; the loader is never asked. *)
Theorem Gets_within_ttl c k item reads :
  cache c !! k = Some item →
  within (expiry item) (timestamp item) reads →
  let r := Gets k reads c in
  result r = replicate (length reads) (value item)
  ∧ notifications (trace r) = replicate (length reads) (OnHit k)
  ∧ loads (trace r) = []
  ∧ ∃ item', cache (state r) !! k = Some item'
             ∧ value item' = value item ∧ expiry item' = expiry item.
Proof.
  revert c item. induction reads as [|[since now] reads IH]; intros c item Hk Hw.
  - simpl. unfold mret, M_ret. obs. split_and!; [done|done|done|eauto].
  - destruct Hw as [Hfresh Hw].
    assert (Hlive : expired since item = false).
    { unfold expired. by apply Z.ltb_ge. }
    cbn [Gets]. rewrite result_bind, state_bind, trace_bind.
    erewrite Get_live by done. obs.
    set (item1 := entry (key item) (value item) now (expiry item)).
    set (c1 := with_index c _ _).
    assert (Hk1 : cache c1 !! k = Some item1) by apply lookup_insert_eq.
    destruct (IH c1 item1 Hk1 Hw) as (Hr & Hn & Hl & Hi).
    rewrite result_bind, state_bind, trace_bind.
    unfold mret at 1 2 3, M_ret. obs.
    rewrite app_nil_r, notifications_app, loads_app, Hr, Hn, Hl.
    split_and!; [done|done|done|exact Hi].
Qed.


(** ** Sweeps that find nothing *)

Lemma rangeCache_nothing_stale now visit c :
  (∀ k, staleAt now c k = false) →
  state (rangeCache now visit c) = c
  ∧ notifications (trace (rangeCache now visit c)) = []
  ∧ loads (trace (rangeCache now visit c)) = [].
Proof.
  intros Hfresh. induction visit as [|k rest IH].
  - cbn [rangeCache]. unfold mret, M_ret. by obs.
  - cbn [rangeCache]. rewrite state_bind, trace_bind.
    rewrite cleanupEntry_eq, Hfresh. obs.
    destruct IH as (Hs & Hn & Hl).
    by rewrite notifications_app, loads_app, Hs, Hn, Hl.
Qed.

(** X11: a sweep leaves no entry behind that is stale at the time of the
    sweep, so a second sweep at that time, in whatever order it walks the
    map, removes nothing and calls nothing; more generally a sweep of a
    cache without stale entries leaves the cache exactly as it is. *)
Theorem sweep_twice c now visit :
  consistent c →
  NoDup visit →
  (∀ k, k ∈ visit ↔ is_Some (cache c !! k)) →
  let c1 := state (cleanupExpiredEntries now visit c) in
  (∀ k, staleAt now c1 k = false)
  ∧ (∀ visit', state (cleanupExpiredEntries now visit' c1) = c1
               ∧ notifications (trace (cleanupExpiredEntries now visit' c1)) = [])
  ∧ (∀ c' now' visit', (∀ k, staleAt now' c' k = false) →
       state (cleanupExpiredEntries now' visit' c') = c'
       ∧ notifications (trace (cleanupExpiredEntries now' visit' c')) = []).
Proof.
  intros Hc Hnd Hvisit c1.
  assert (Hidle : ∀ c' now' visit', (∀ k, staleAt now' c' k = false) →
       state (cleanupExpiredEntries now' visit' c') = c'
       ∧ notifications (trace (cleanupExpiredEntries now' visit' c')) = []).
  { intros c' now' visit' Hfresh.
    destruct (rangeCache_nothing_stale now' visit' c' Hfresh) as (Hs & Hn & _).
    rewrite cleanupExpiredEntries_eq. obs. split; [done|].
    change (Mutex Lock :: ?t) with ([Mutex Lock] ++ t).
    by rewrite !notifications_app, Hn. }
  assert (Hfresh : ∀ k, staleAt now c1 k = false).
  { intros k.
    destruct (rangeCache_spec now visit c Hnd (λ k item, consistent_key c k item Hc))
      as (Hcache & _).
    unfold c1. rewrite cleanupExpiredEntries_eq. obs.
    unfold staleAt at 1. rewrite Hcache. case_decide as Hs; [done|].
    destruct (cache c !! k) as [item|] eqn:Hk; [|done].
    destruct (expired now item) eqn:Hx; [|done].
    exfalso. apply Hs. split; [apply Hvisit; eauto|].
    unfold staleAt. by rewrite Hk. }
  split_and!; [done| |done].
  intros visit'. by apply Hidle.
Qed.

(** ** The mutex *)

Lemma mutexOps_app tr1 tr2 : mutexOps (tr1 ++ tr2) = mutexOps tr1 ++ mutexOps tr2.
Proof. apply omap_app. Qed.

Lemma mutex_calls_app m ops1 ops2 m' :
  mutex_calls m ops1 = Some m' →
  mutex_calls m (ops1 ++ ops2) = mutex_calls m' ops2.
Proof.
  revert m. induction ops1 as [|op ops1 IH]; intros m; simpl.
  - by intros [= ->].
  - destruct (mutex_call m op); [apply IH|done].
Qed.

Lemma Put_mutexOps c k v ttl now :
  mutexOps (trace (Put k v ttl now c)) = [Lock; Unlock].
Proof. by apply (Put_cases c k v ttl now (λ r, mutexOps (trace r) = [Lock; Unlock])). Qed.

Lemma fetch_mutexOps c k now :
  mutexOps (trace (fetchFromBackingStore k now c)) = []
  ∨ mutexOps (trace (fetchFromBackingStore k now c)) = [Lock; Unlock].
Proof.
  rewrite fetch_eq. destruct (backingStore c k).2; [right|by left].
  cbv zeta. obs. apply Put_mutexOps.
Qed.

Lemma rangeCache_mutexOps now visit c : mutexOps (trace (rangeCache now visit c)) = [].
Proof.
  revert c. induction visit as [|k rest IH]; intros c; [done|].
  cbn [rangeCache]. rewrite trace_bind, mutexOps_app, IH, cleanupEntry_eq.
  by destruct (staleAt now c k).
Qed.

Lemma step_mutex_calls o c :
  mutex_calls idle (mutexOps (trace (step o c))) = Some idle.
Proof.
  destruct o as [k v ttl now|k since now|k|now visit]; simpl.
  - by rewrite Put_mutexOps.
  - rewrite trace_bind, mutexOps_app. unfold mret at 1, M_ret. obs.
    rewrite app_nil_r.
    destruct (cache c !! k) as [item|] eqn:Hk.
    + destruct (expired since item) eqn:Hx.
      * erewrite Get_expired by done. cbv zeta. obs. rewrite mutexOps_app.
        by destruct (fetch_mutexOps
             (with_index c (delete k (cache c)) (list_Remove (key item) (order c)))
             k now) as [-> | ->].
      * by erewrite Get_live.
    + rewrite Get_miss by done. cbv zeta. obs. rewrite mutexOps_app.
      by destruct (fetch_mutexOps c k now) as [-> | ->].
  - rewrite Remove_eq. by destruct (cache c !! k).
  - rewrite cleanupExpiredEntries_eq. obs.
    change (Mutex Lock :: ?t) with ([Mutex Lock] ++ t).
    by rewrite !mutexOps_app, rangeCache_mutexOps.
Qed.

(** X12: every method gives back the lock that it takes, on each of its
    paths, and never asks for the mutex while it holds it: the calls on
    [c.mutex] made by any sequence of operations, fed to an idle mutex one
    after the other, never wait, never unlock a mutex that is not locked,
    and leave the mutex idle. *)
Theorem mutex_is_released (ops : list (Op K V)) c :
  mutex_calls idle (mutexOps (trace (run ops c))) = Some idle.
Proof.
  revert c. induction ops as [|o rest IH]; intros c; [done|].
  cbn [run]. rewrite trace_bind, mutexOps_app.
  rewrite (mutex_calls_app _ _ _ idle) by apply step_mutex_calls.
  apply IH.
Qed.

Lemma placed_app h tr1 tr2 h' :
  placed h tr1 = Some h' → placed h (tr1 ++ tr2) = placed h' tr2.
Proof.
  revert h. induction tr1 as [|e tr1 IH]; intros h; simpl.
  - by intros [= ->].
  - destruct e as [op|n|k|a]; [apply IH|destruct h; (done || apply IH)..|apply IH].
Qed.

Lemma Put_placed c k v ttl now : placed Free (trace (Put k v ttl now c)) = Some Free.
Proof. by apply (Put_cases c k v ttl now (λ r, placed Free (trace r) = Some Free)). Qed.

Lemma fetch_placed c k now :
  placed Free (trace (fetchFromBackingStore k now c)) = Some Free.
Proof.
  rewrite fetch_eq. destruct (backingStore c k).2; [|done].
  cbv zeta. obs. simpl. apply Put_placed.
Qed.

Lemma rangeCache_placed now visit c :
  placed Exclusive (trace (rangeCache now visit c)) = Some Exclusive.
Proof.
  revert c. induction visit as [|k rest IH]; intros c; [done|].
  cbn [rangeCache]. rewrite trace_bind, cleanupEntry_eq.
  destruct (staleAt now c k); obs; simpl; apply IH.
Qed.

Lemma step_placed o c : placed Free (trace (step o c)) = Some Free.
Proof.
  destruct o as [k v ttl now|k since now|k|now visit]; simpl.
  - apply Put_placed.
  - rewrite trace_bind. unfold mret at 1, M_ret. obs. rewrite app_nil_r.
    destruct (cache c !! k) as [item|] eqn:Hk.
    + destruct (expired since item) eqn:Hx.
      * erewrite Get_expired by done. cbv zeta. obs. simpl. apply fetch_placed.
      * by erewrite Get_live.
    + rewrite Get_miss by done. cbv zeta. obs. simpl. apply fetch_placed.
  - rewrite Remove_eq. by destruct (cache c !! k).
  - rewrite cleanupExpiredEntries_eq. obs. simpl.
    by rewrite (placed_app _ _ _ Exclusive) by apply rangeCache_placed.
Qed.

(** X13: in any sequence of operations the loader is only ever called
    with the mutex released, and the listener only ever with the mutex
    held (the read lock in [Get], the write lock elsewhere). *)
Theorem calls_out_are_placed (ops : list (Op K V)) c :
  placed Free (trace (run ops c)) = Some Free.
Proof.
  revert c. induction ops as [|o rest IH]; intros c; [done|].
  cbn [run]. rewrite trace_bind.
  rewrite (placed_app _ _ _ Free) by apply step_placed.
  apply IH.
Qed.


(** ** [Close] and what comes after it *)

Lemma Close_open c : stopCleanup c = false → Close false c = Some (true, stopped c).
Proof.
  intros Hopen. unfold Close, Once_Do, close_stopCleanup. by rewrite Hopen.
Qed.

Lemma Closes_done (cs : list (LRUCache K V)) calls :
  Closes true cs calls = Some (true, cs).
Proof.
  revert cs. induction calls as [|i rest IH]; intros cs; [done|].
  cbn [Closes]. destruct (cs !! i) as [c|] eqn:Hi; [|apply IH].
  rewrite Close_done, list_insert_id by done. apply IH.
Qed.

(** X14: in a program that calls [Close] any number of times on any of its
    caches, no call panics, and only the very first call closes a channel:
    the cache of that call is stopped, and every later call, on that cache
    or on another, changes nothing. *)
Theorem Close_only_first (cs : list (LRUCache K V)) i c rest :
  cs !! i = Some c →
  stopCleanup c = false →
  Closes false cs (i :: rest) = Some (true, <[i := stopped c]> cs)
  ∧ (∀ (cs' : list (LRUCache K V)) calls, Closes true cs' calls = Some (true, cs'))
  ∧ (∀ j c', j ≠ i → cs !! j = Some c' →
       ∃ cs', Closes false cs (i :: rest) = Some (true, cs') ∧ cs' !! j = Some c').
Proof.
  intros Hi Hopen.
  assert (Hrun : Closes false cs (i :: rest) = Some (true, <[i := stopped c]> cs)).
  { cbn [Closes]. rewrite Hi, Close_open by done. apply Closes_done. }
  split_and!; [done|apply Closes_done|].
  intros j c' Hne Hj. eexists. split; [done|].
  by rewrite list_lookup_insert_ne.
Qed.

Lemma Put_stopped c k v ttl now :
  Put k v ttl now (stopped c)
  = (tt, stopped (state (Put k v ttl now c)), trace (Put k v ttl now c)).
Proof.
  unfold Put, evict, state, trace. run_M.
  destruct (cache c !! k); simpl; [done|].
  destruct (capacity c <=? Z.of_nat (size (cache c))); simpl; [|done].
  by destruct (last (order c)).
Qed.

Lemma fetch_stopped c k now :
  fetchFromBackingStore k now (stopped c)
  = (result (fetchFromBackingStore k now c),
     stopped (state (fetchFromBackingStore k now c)),
     trace (fetchFromBackingStore k now c)).
Proof.
  rewrite !fetch_eq. change (backingStore (stopped c)) with (backingStore c).
  destruct (backingStore c k).2; [|done].
  cbv zeta. rewrite Put_stopped. by obs.
Qed.

Lemma Get_stopped c k since now :
  Get k since now (stopped c)
  = (result (Get k since now c), stopped (state (Get k since now c)),
     trace (Get k since now c)).
Proof.
  destruct (cache c !! k) as [item|] eqn:Hk.
  - destruct (expired since item) eqn:Hx.
    + rewrite (Get_expired (stopped c) k since now item),
        (Get_expired c k since now item) by done.
      cbv zeta. obs.
      change (with_index (stopped c) (delete k (cache (stopped c)))
                (list_Remove (key item) (order (stopped c))))
        with (stopped (with_index c (delete k (cache c))
                         (list_Remove (key item) (order c)))).
      rewrite fetch_stopped. by obs.
    + by rewrite (Get_live (stopped c) k since now item),
        (Get_live c k since now item).
  - rewrite (Get_miss (stopped c)), (Get_miss c) by done.
    cbv zeta. obs. rewrite fetch_stopped. by obs.
Qed.

Lemma Remove_stopped c k :
  Remove k (stopped c) = (tt, stopped (state (Remove k c)), trace (Remove k c)).
Proof.
  rewrite !Remove_eq. change (cache (stopped c)) with (cache c).
  by destruct (cache c !! k).
Qed.

Lemma rangeCache_stopped now visit c :
  rangeCache now visit (stopped c)
  = (tt, stopped (state (rangeCache now visit c)), trace (rangeCache now visit c)).
Proof.
  revert c. induction visit as [|k rest IH]; intros c; [done|].
  cbn [rangeCache].
  assert (Hentry : cleanupEntry now k (stopped c)
    = (tt, stopped (state (cleanupEntry now k c)), trace (cleanupEntry now k c))).
  { rewrite !cleanupEntry_eq.
    change (staleAt now (stopped c) k) with (staleAt now c k).
    by destruct (staleAt now c k). }
  unfold mbind, M_bind. rewrite Hentry.
  destruct (cleanupEntry now k c) as [[[] c1] t1]. obs.
  rewrite IH. by destruct (rangeCache now rest c1) as [[[] c2] t2].
Qed.

Lemma step_stopped o c :
  step o (stopped c) = (tt, stopped (state (step o c)), trace (step o c)).
Proof.
  destruct o as [k v ttl now|k since now|k|now visit]; simpl.
  - apply Put_stopped.
  - unfold mbind, M_bind. rewrite Get_stopped.
    by destruct (Get k since now c) as [[r c1] t1].
  - apply Remove_stopped.
  - rewrite !cleanupExpiredEntries_eq, rangeCache_stopped. by obs.
Qed.

(** X15: the operations neither look at the stop channel nor touch it: on
    a cache that has been closed every [Put], [Get], [Remove] and sweep
    returns the same, makes the same calls and leaves the same index as on
    the cache that has not, and the cache stays closed. *)
Theorem operations_after_Close (ops : list (Op K V)) c :
  run ops (stopped c) = (tt, stopped (state (run ops c)), trace (run ops c))
  ∧ (∀ k since now,
       Get k since now (stopped c)
       = (result (Get k since now c), stopped (state (Get k since now c)),
          trace (Get k since now c)))
  ∧ (stopCleanup c = false → Close false c = Some (true, stopped c)).
Proof.
  split_and!; [|intros; apply Get_stopped|apply Close_open].
  revert c. induction ops as [|o rest IH]; intros c; [done|].
  cbn [run]. unfold mbind, M_bind. rewrite step_stopped.
  destruct (step o c) as [[[] c1] t1]. obs. rewrite IH.
  by destruct (run rest c1) as [[[] c2] t2].
Qed.

(** ** Without a backing store *)

Lemma staleAt_empty now c k : cache c = ∅ → staleAt now c k = false.
Proof. intros Hc. unfold staleAt. by rewrite Hc, lookup_empty. Qed.

(** X16: a cache built with a [nil] backing store gets its entries from
    [Put] alone.  At any time a [Get] of a key that it does not hold
    returns the zero value and leaves the cache as it is; and as long as
    no [Put] is made, whatever [Get], [Remove] and sweeps run, the cache
    stays as [NewLRUCache] made it. *)
Theorem no_loader_no_entries cap dttl interval (ops : list (Op K V)) :
  let c0 := NewLRUCache cap dttl None interval in
  (∀ k since now,
     cache (state (run ops c0)) !! k = None →
     result (Get k since now (state (run ops c0))) = zeroValue
     ∧ state (Get k since now (state (run ops c0))) = state (run ops c0)
     ∧ notifications (trace (Get k since now (state (run ops c0)))) = [OnMiss k])
  ∧ (Forall (λ o, is_Put o = false) ops → state (run ops c0) = c0).
Proof.
  intros c0. split.
  - intros k since now Hk.
    assert (Hbs : (backingStore (state (run ops c0)) k).2 = false).
    { rewrite (frames_backingStore c0) by apply keeps_run. done. }
    rewrite Get_miss by done. cbv zeta. obs.
    rewrite fetch_not_found by done. by obs.
  - intros Hops.
    assert (Hstep : ∀ o, is_Put o = false → state (step o c0) = c0).
    { intros [k v ttl now|k since now|k|now visit] Ho; [done|..]; simpl.
      - rewrite state_bind. unfold mret, M_ret. obs.
        rewrite Get_miss by apply lookup_empty. cbv zeta. obs.
        by rewrite fetch_not_found.
      - rewrite Remove_eq. simpl. by rewrite lookup_empty.
      - rewrite cleanupExpiredEntries_eq. obs.
        apply rangeCache_nothing_stale. intros k. by apply staleAt_empty. }
    induction Hops as [|o rest Ho Hrest IH]; [done|].
    cbn [run]. rewrite state_bind, Hstep by done. apply IH.
Qed.


(** ** A run of inserts *)

Lemma run_app (ops1 ops2 : list (Op K V)) c :
  state (run (ops1 ++ ops2) c) = state (run ops2 (state (run ops1 c)))
  ∧ trace (run (ops1 ++ ops2) c)
    = trace (run ops1 c) ++ trace (run ops2 (state (run ops1 c))).
Proof.
  revert c. induction ops1 as [|o ops1 IH]; intros c; [done|].
  simpl. rewrite !state_bind, !trace_bind.
  destruct (IH (state (step o c))) as [-> ->]. by rewrite app_assoc.
Qed.

Lemma run_one (o : Op K V) c :
  state (run [o] c) = state (step o c) ∧ trace (run [o] c) = trace (step o c).
Proof.
  simpl. rewrite state_bind, trace_bind. unfold mret, M_ret. obs.
  by rewrite app_nil_r.
Qed.

(** X17: [Put]s of keys that are all different, into a fresh cache of
    capacity at least 1, evict first in, first out: the cache ends up
    with the keys put last, as many as the capacity allows, the latest at
    the front, and [OnEvict] has been called for all the keys before
    them, once each and in the order in which they were put. *)
Theorem puts_evict_first_in_first_out cap dttl bs interval
    (ps : list (K * V * list Z * Z)) :
  1 ≤ cap →
  NoDup ((λ p, p.1.1.1) <$> ps) →
  let keys := (λ p, p.1.1.1) <$> ps in
  let r := run (puts ps) (NewLRUCache cap dttl bs interval) in
  order (state r) = take (Z.to_nat cap) (reverse keys)
  ∧ notifications (trace r)
    = OnEvict <$> take (length keys - Z.to_nat cap) keys.
Proof.
  intros Hcap. set (c0 := NewLRUCache cap dttl bs interval).
  induction ps as [|[[[k v] ttl] now] ps IH] using rev_ind; intros Hnd keys r.
  { unfold r, keys. simpl. change (reverse []) with (@nil K). by rewrite take_nil. }
  unfold keys, r, puts. rewrite !fmap_app.
  change ((λ p : K * V * list Z * Z, OpPut p.1.1.1 p.1.1.2 p.1.2 p.2)
            <$> [(k, v, ttl, now)]) with [OpPut k v ttl now].
  change ((λ p : K * V * list Z * Z, p.1.1.1) <$> [(k, v, ttl, now)]) with [k].
  rewrite fmap_app in Hnd.
  change ((λ p : K * V * list Z * Z, p.1.1.1) <$> [(k, v, ttl, now)]) with [k] in Hnd.
  apply NoDup_app in Hnd as (Hnd & Hfresh & _).
  specialize (IH Hnd). cbv zeta in IH. destruct IH as [Horder Hnotes].
  fold (puts ps) in *.
  set (ks := (λ p : K * V * list Z * Z, p.1.1.1) <$> ps) in *.
  destruct (run_app (puts ps) [OpPut k v ttl now] c0) as [-> ->].
  set (c := state (run (puts ps) c0)) in *.
  destruct (run_one (OpPut k v ttl now) c) as [-> ->]. fold c. simpl step.
  destruct (keeps_run (puts ps) c0) as (Hf & Hc & _).
  specialize (Hc (consistent_new _ _ _ _)). fold c in Hf, Hc.
  apply frames_capacity in Hf. simpl in Hf.
  destruct (Z.to_nat cap) as [|n'] eqn:Hn; [lia|].
  assert (Hk : cache c !! k = None).
  { destruct (cache c !! k) eqn:Hk; [|done]. exfalso.
    assert (k ∈ order c) as Hin by (apply (consistent_elem_of c k Hc); eauto).
    rewrite Horder in Hin. apply subseteq_take in Hin.
    rewrite elem_of_reverse in Hin.
    apply (Hfresh k Hin). left. }
  assert (Hsize : size (cache c) = (S n' `min` length ks)%nat).
  { by rewrite (consistent_size c Hc), Horder, length_take, length_reverse. }
  rewrite notifications_app, Hnotes, reverse_snoc, length_app. simpl length.
  destruct (decide (length ks < S n')%nat) as [Hroom|Hfull].
  - rewrite Put_room by (rewrite ?Hf, ?Hsize; (done || lia)). obs. simpl.
    rewrite Horder, !take_ge by (rewrite ?length_reverse; lia).
    replace (length ks + 1 - S n')%nat with 0%nat by lia.
    replace (length ks - S n')%nat with 0%nat by lia. done.
  - assert (He : ∃ e, ks !! (length ks - S n')%nat = Some e).
    { apply lookup_lt_is_Some. lia. }
    destruct He as [e He].
    assert (Hrev : reverse ks !! n' = Some e).
    { rewrite reverse_lookup by lia. done. }
    assert (Hlast : last (order c) = Some e).
    { rewrite last_lookup, Horder, length_take, length_reverse.
      replace (Init.Nat.pred (S n' `min` length ks)) with n' by lia.
      by rewrite lookup_take_lt by lia. }
    destruct (list_Remove_last (order c) e) as (rest & Ho & Hrm);
      [apply Hc|done|].
    assert (Hrest : rest = take n' (reverse ks)).
    { rewrite Horder, (take_S_r _ _ e) in Ho by done.
      by apply app_inj_tail in Ho as [-> _]. }
    erewrite Put_full by (rewrite ?Hf, ?Hsize; (done || lia)). obs. simpl.
    rewrite Hrm, Hrest. split; [done|].
    replace (length ks + 1 - S n')%nat with (S (length ks - S n')) by lia.
    rewrite take_app_le by lia.
    by rewrite (take_S_r _ _ e), fmap_app.
Qed.

(** ** The listener of the tests *)

(** X18: each counter of a [CountingCacheListener] reads, for every key,
    the number of calls of its method that the listener has received for
    that key; calls of the other methods and for other keys do not move
    it, and a key never heard of reads 0. *)
Theorem CountingCacheListener_counts (ns : list (Notification K)) k :
  hitMap (listen ns) !!! k = count (OnHit k) ns
  ∧ missMap (listen ns) !!! k = count (OnMiss k) ns
  ∧ evictMap (listen ns) !!! k = count (OnEvict k) ns
  ∧ expireMap (listen ns) !!! k = count (OnExpire k) ns
  ∧ (hitMap (listen ns) !!! k + missMap (listen ns) !!! k
     + evictMap (listen ns) !!! k + expireMap (listen ns) !!! k
     ≤ length ns)%nat.
Proof.
  rewrite hitMap_listen, missMap_listen, evictMap_listen, expireMap_listen.
  split_and!; [done..|].
  induction ns as [|n ns IH]; [done|].
  rewrite !count_cons. simpl length.
  destruct n; repeat case_decide; simplify_eq; lia.
Qed.




(** ** Refills and evictions *)

(** X20: what a refill from the backing store costs, in a cache that holds
    no more than its capacity.  After an expiry the refill takes the place
    of the entry that expired: nothing is evicted and the cache keeps its
    size.  After a miss the refill is a new entry: with room left the
    cache grows by one, without room the least recently used entry is
    evicted for it, and [OnMiss] is followed by [OnEvict]. *)
Theorem refill_and_eviction c k since now v :
  consistent c →
  backingStore c k = (v, true) →
  Z.of_nat (size (cache c)) ≤ capacity c →
  let r := Get k since now c in
  (∀ item, cache c !! k = Some item → expired since item = true →
     result r = v
     ∧ notifications (trace r) = [OnHit k; OnExpire k]
     ∧ size (cache (state r)) = size (cache c))
  ∧ (cache c !! k = None → Z.of_nat (size (cache c)) < capacity c →
       result r = v
       ∧ notifications (trace r) = [OnMiss k]
       ∧ size (cache (state r)) = S (size (cache c)))
  ∧ (cache c !! k = None → Z.of_nat (size (cache c)) = capacity c →
     cache c ≠ ∅ →
       ∃ e, last (order c) = Some e
         ∧ result r = v
         ∧ notifications (trace r) = [OnMiss k; OnEvict e]
         ∧ cache (state r) !! e = None
         ∧ size (cache (state r)) = size (cache c)).
Proof.
  intros Hc Hv Hsize r. split_and!.
  - intros item Hk Hx.
    set (c2 := with_index c (delete k (cache c)) (list_Remove (key item) (order c))).
    assert (Hk2 : cache c2 !! k = None) by apply lookup_delete_eq.
    assert (Hs2 : size (cache c2) = pred (size (cache c))).
    { simpl. apply map_size_delete_Some. eauto. }
    assert (Hpos : size (cache c) ≠ 0%nat).
    { intros Hz%map_size_empty_inv. by rewrite Hz, lookup_empty in Hk. }
    unfold r. erewrite Get_expired by done. cbv zeta. obs. fold c2.
    rewrite (fetch_found c2 k now v) by done. obs.
    rewrite Put_room by (rewrite ?Hs2; simpl; (done || lia)). obs. simpl.
    rewrite (consistent_key c k item Hc Hk). split_and!; [done|done|].
    rewrite map_size_insert_None by apply lookup_delete_eq.
    rewrite map_size_delete_Some by eauto. lia.
  - intros Hk Hroom. unfold r. rewrite Get_miss by done. cbv zeta. obs.
    rewrite (fetch_found c k now v) by done. obs.
    rewrite Put_room by done. obs. simpl. split_and!; [done|done|].
    by apply map_size_insert_None.
  - intros Hk Hfull Hne.
    destruct (last (order c)) as [e|] eqn:He.
    + exists e. unfold r. rewrite Get_miss by done. cbv zeta. obs.
      rewrite (fetch_found c k now v) by done. obs.
      erewrite Put_full by (done || lia). obs. simpl.
      assert (Hek : e ≠ k).
      { intros ->. apply consistent_last in He as [? ?]; congruence. }
      split_and!; [done|done|done| |].
      * rewrite lookup_insert_ne by done. apply lookup_delete_eq.
      * rewrite map_size_insert_None by (rewrite lookup_delete_None; by right).
        rewrite map_size_delete_Some by (by apply consistent_last).
        destruct (size (cache c)) eqn:Hs; [|done].
        by apply map_size_empty_inv in Hs.
    + apply consistent_no_last in He; [|done].
      by apply map_size_empty_inv in He.
Qed.

(** X21: the staleness test is strict and takes the TTL as it comes.  An
    entry put with a negative TTL is expired for every [Get] made at or
    after the time of its [Put], which goes to the loader; an entry put
    with a TTL of zero is still served by a [Get] made at that same
    instant. *)
Theorem ttl_edge_cases c k v t more now since now' :
  consistent c →
  now ≤ since →
  let r := Get k since now' (state (Put k v (t :: more) now c)) in
  (t < 0 →
     (∃ rest, notifications (trace r) = OnHit k :: OnExpire k :: rest)
     ∧ loads (trace r) = [k]
     ∧ result r = (if (backingStore c k).2 then (backingStore c k).1 else zeroValue))
  ∧ (t = 0 → since = now →
       result r = v ∧ notifications (trace r) = [OnHit k]).
Proof.
  intros Hc Htime r. split.
  - intros Hneg.
    assert (Hlate : ttl_of c (t :: more) < Sub since now).
    { simpl. unfold Sub, minDuration, maxDuration. lia. }
    destruct (Put_then_late_Get_aux c k v (t :: more) now since now' Hc Hlate)
      as (Hns & _ & _ & _ & Hl & Hr & _).
    done.
  - intros -> ->.
    assert (Hfresh : Sub now now ≤ ttl_of c (0 :: more)).
    { simpl. unfold Sub, minDuration, maxDuration. lia. }
    destruct (Put_then_Get_aux c k v (0 :: more) now now now' Hfresh)
      as (Hr & Ht & _).
    fold r in Hr, Ht. by rewrite Ht.
Qed.

End Properties.

(** * Concrete runs *)

(** The claim of C1 as it is written, for every capacity, fails at
    capacity 0: the first [Put] finds nothing to evict and inserts. *)
Lemma capacity_bound_fails_at_zero :
  let c := state (run [OpPut "key1" "value1" [] 0] (newTestCache 0 (5 * second))) in
  capacity c = 0 ∧ Z.of_nat (size (cache c)) = 1
  ∧ ¬ (Z.of_nat (size (cache c)) ≤ capacity c).
Proof. vm_compute. split_and!; [done|done|]. intros Hle. by apply Hle. Qed.

Lemma capacity_bound_witness :
  1 ≤ 2 ∧
  Z.of_nat (size (cache (state (run
    [OpPut "key1" "value1" [] 0; OpPut "key2" "value2" [] 1;
     OpPut "key3" "value3" [] 2; OpGet "key1" 3 4; OpGet "keyX" 5 6]
    (newTestCache 2 (5 * second)))))) ≤ 2.
Proof.
  split; [lia|].
  apply (proj1 (capacity_bound 2 (5 * second) (Some testStore) (5 * second)
                  [OpPut "key1" "value1" [] 0; OpPut "key2" "value2" [] 1;
                   OpPut "key3" "value3" [] 2; OpGet "key1" 3 4;
                   OpGet "keyX" 5 6])).
  lia.
Defined.

(** C2 on the keys of [TestCacheEviction]. *)
Lemma lru_order_witness :
  let c0 := newTestCache 2 (5 * second) in
  let r3 := (Put "key1" "value1" [] 0 ;; Put "key2" "value2" [] 1 ;;
             Put "key3" "value3" [] 2) c0 in
  let r4 := Get "key1" 3 4 (state r3) in
  notifications (trace r3) = [OnEvict "key1"]
  ∧ cache (state r3) !! "key1" = None
  ∧ cache (state r3) !! "key2" = Some (entry "key2" "value2" 1 (ttl_of c0 []))
  ∧ cache (state r3) !! "key3" = Some (entry "key3" "value3" 2 (ttl_of c0 []))
  ∧ order (state r3) = ["key3"; "key2"]
  ∧ result r4 = zeroValue
  ∧ notifications (trace r4) = [OnMiss "key1"]
  ∧ evictMap (listen (notifications (trace r3 ++ trace r4))) !!! "key1" = 1%nat
  ∧ state r4 = state r3.
Proof.
  apply (lru_order "key1" "key2" "key3" "value1" "value2" "value3"
           [] [] [] 0 1 2 3 4 (5 * second) (Some testStore) (5 * second));
    [discriminate|discriminate|discriminate|reflexivity].
Defined.

(** The claim of C3 as it is written fails on a stale entry
    ([TestCacheExpiration]: TTL 2s, read after 3s): [Get] calls [OnHit]
    before it looks at the age of the entry. *)
Lemma OnHit_on_stale_entry :
  let c := state (Put "key1" "value1" [] 0 (newTestCache 2 (2 * second))) in
  staleAt (3 * second) c "key1" = true
  ∧ notifications (trace (Get "key1" (3 * second) (3 * second) c))
    = [OnHit "key1"; OnExpire "key1"].
Proof. vm_compute. done. Qed.

(** The claim of C5 as it is written fails: a capacity of 0 is accepted,
    and the cache that comes out evicts on every new key. *)
Lemma zero_capacity_is_accepted :
  let c := newTestCache 0 (5 * second) in
  let r := (Put "key1" "value1" [] 0 ;; Put "key2" "value2" [] 1 ;;
            Put "key3" "value3" [] 2) c in
  capacity c = 0 ∧ stopCleanup c = false
  ∧ notifications (trace r) = [OnEvict "key1"; OnEvict "key2"]
  ∧ order (state r) = ["key3"]
  ∧ result (Get "key3" 3 4 (state r)) = "value3".
Proof. vm_compute. done. Qed.

Lemma NewLRUCache_accepts_any_capacity_witness :
  0 ≤ 0 ∧
  (size (cache (state (run [OpPut "key1" "value1" [] 0; OpPut "key2" "value2" [] 1]
                         (newTestCache 0 (5 * second))))) ≤ 1)%nat.
Proof.
  split; [lia|].
  pose proof (NewLRUCache_accepts_any_capacity (K:=string) (V:=string)
                0 (5 * second) (Some testStore) (5 * second)) as Hnew.
  destruct Hnew as (_ & _ & _ & _ & _ & _ & Hz).
  exact (proj1 (Hz (Z.le_refl 0)
                   [OpPut "key1" "value1" [] 0; OpPut "key2" "value2" [] 1])).
Defined.

(** C6 on [TestCachePutGet], read one second after the write. *)
Lemma Get_hit_refreshes_witness :
  let c := state (Put "key1" "value1" [] 0 (newTestCache 2 (5 * second))) in
  let item := entry "key1" "value1" 0 (5 * second) in
  let r := Get "key1" second second c in
  result r = value item
  ∧ cache (state r) !! "key1" = Some (entry "key1" (value item) second (expiry item))
  ∧ (∀ k', k' ≠ "key1" → cache (state r) !! k' = cache c !! k')
  ∧ order (state r) = "key1" :: list_Remove "key1" (order c)
  ∧ head (order (state r)) = Some "key1"
  ∧ notifications (trace r) = [OnHit "key1"]
  ∧ loads (trace r) = [].
Proof.
  apply (Get_hit_refreshes
           (state (Put "key1" "value1" [] 0 (newTestCache 2 (5 * second))))
           "key1" second second (entry "key1" "value1" 0 (5 * second))).
  - apply (keeps_Put (newTestCache 2 (5 * second))), consistent_new.
  - vm_compute. reflexivity.
  - vm_compute. reflexivity.
Defined.

(** C7 on [TestCacheGetNonExistentKey]: "keyX" comes from the backing
    store. *)
Lemma backing_store_refill_witness :
  let c := newTestCache 2 (5 * second) in
  (cache c !! "keyX" = None ∨ staleAt 0 c "keyX" = true)
  ∧ loads (trace (Get "keyX" 0 0 c)) = ["keyX"]
  ∧ result (Get "keyX" 0 0 c) = "valueX".
Proof.
  intros c.
  assert (Htrig : cache c !! "keyX" = None ∨ staleAt 0 c "keyX" = true)
    by (left; reflexivity).
  pose proof (backing_store_refill c "keyX" 0 0 Htrig) as (Hl & Hf & _).
  split_and!; [exact Htrig|exact Hl|exact (proj1 (Hf "valueX" eq_refl))].
Defined.

(** C8 on an entry with a TTL of one second in a cache swept every five
    seconds: the sweep at five seconds expires it. *)
Lemma sweep_removes_exactly_stale_witness :
  let c := state (Put "key1" "value1" [second] 0 (newTestCache 2 (5 * second))) in
  let r := cleanupExpiredEntries (5 * second) (order c) c in
  consistent c
  ∧ NoDup (order c)
  ∧ (∀ k, k ∈ order c ↔ is_Some (cache c !! k))
  ∧ cache (state r) !! "key1" = None
  ∧ expireMap (listen (notifications (trace r))) !!! "key1" = 1%nat
  ∧ loads (trace r) = [].
Proof.
  intros c r.
  assert (Hc : consistent c).
  { apply (keeps_Put (newTestCache 2 (5 * second))), consistent_new. }
  pose proof Hc as (Hnd & Hdom & _).
  pose proof (sweep_removes_exactly_stale c (5 * second) (order c) Hc Hnd Hdom)
    as (Hstale & _ & _ & _ & _ & Hloads & _).
  assert (Hk : cache c !! "key1" = Some (entry "key1" "value1" 0 second))
    by (vm_compute; reflexivity).
  destruct (Hstale "key1" _ Hk eq_refl) as [Hgone Hexp].
  split_and!; [exact Hc|exact Hnd|exact Hdom|exact Hgone|exact Hexp|exact Hloads].
Defined.

(** C4 fails on the second cache of a program: [closeOnce] belongs to the
    package, so once [Close] has run on one cache it does nothing on any
    other, whose channel stays open and whose goroutine goes on sweeping. *)
Theorem Close_of_second_cache_does_nothing :
  let c1 := newTestCache 2 (5 * second) in
  let c2 := state (Put "key1" "value1" [] 0 (newTestCache 3 (2 * second))) in
  ∃ closeOnce c1',
    Close false c1 = Some (closeOnce, c1')
    ∧ stopCleanup c1' = true
    ∧ Close closeOnce c2 = Some (closeOnce, c2)
    ∧ stopCleanup c2 = false
    ∧ ready c2 StopCleanup = false
    ∧ result (startCleanup (TickerC (5 * second) ["key1"]) c2) = true
    ∧ notifications (trace (startCleanup (TickerC (5 * second) ["key1"]) c2))
      = [OnExpire "key1"].
Proof. eexists _, _. vm_compute. done. Qed.

(** C9 fails in [Get]: it takes [RLock], which any number of goroutines
    hold together, and writes the list, the item or the map under it.  Two
    goroutines that call [Get] on a key of the cache can both be past
    [RLock] when the first of them writes; two that call [Put] cannot. *)
Theorem Get_writes_under_read_lock :
  let c := state (Put "key1" "value1" [] 0 (newTestCache 2 (5 * second))) in
  trace (Get "key1" second second c)
    = [Mutex RLock; Index Read; Notify (OnHit "key1"); Index Write; Index Write;
       Mutex RUnlock]
  ∧ guarded Free (trace (Get "key1" second second c)) = false
  ∧ guarded Free (trace (Get "key1" (6 * second) (6 * second) c)) = false
  ∧ (rw_call {| writer := false; readers := 0 |} RLock ≫= λ m, rw_call m RLock)
    = Some {| writer := false; readers := 2 |}
  ∧ writes_exclusive {| writer := false; readers := 0 |}
      (alternate (trace (Get "key1" second second c))
                 (trace (Get "key1" second second c)))
    = Some false
  ∧ writes_exclusive {| writer := false; readers := 0 |}
      (alternate (trace (Put "key1" "value2" [] second c))
                 (trace (Put "key1" "value3" [] second c)))
    = None
  ∧ writes_exclusive {| writer := false; readers := 0 |}
      (trace (Put "key1" "value2" [] second c)
       ++ trace (Put "key1" "value3" [] second c))
    = Some true.
Proof. vm_compute. done. Qed.








(** * Further concrete runs *)

(** X19: [main], when its first [Get] comes within the five seconds of the
    TTL after its first [Put], prints the three values that its comments
    expect, "value1", the empty string and "valueX", between the lines of
    the listener, and its [Close] succeeds; it ends with "keyX" and
    "key3" in the cache. *)
Theorem main_prints t1 s2 t2 t3 t4 s5 t5 s6 t6 :
  Sub s2 t1 ≤ 5 * second →
  (main t1 s2 t2 t3 t4 s5 t5 s6 t6).1
  = ["key1 Hit"; "value1"; "key1 Evicted"; "key1 Miss"; ""; "keyX Miss";
     "key2 Evicted"; "valueX"]
  ∧ ∃ c, (main t1 s2 t2 t3 t4 s5 t5 s6 t6).2 = Some (true, c)
         ∧ stopCleanup c = true ∧ order c = ["keyX"; "key3"].
Proof.
  intros Hfresh. unfold main. cbv zeta.
  set (r1 := Put "key1" "value1" [] t1 _).
  assert (Hk : cache (state r1) !! "key1"
               = Some (entry "key1" "value1" t1 (5 * second)))
    by (vm_compute; reflexivity).
  assert (Hlive : expired s2 (entry "key1" "value1" t1 (5 * second)) = false).
  { unfold expired. simpl. by apply Z.ltb_ge. }
  rewrite (Get_live (state r1) "key1" s2 t2 _ Hk Hlive).
  rewrite !result_mk, !state_mk, !trace_mk.
  split; [vm_compute; reflexivity|].
  eexists. vm_compute. done.
Qed.

Lemma main_prints_witness :
  Sub 1 0 ≤ 5 * second
  ∧ (main 0 1 2 3 4 5 6 7 8).1
    = ["key1 Hit"; "value1"; "key1 Evicted"; "key1 Miss"; ""; "keyX Miss";
       "key2 Evicted"; "valueX"].
Proof.
  assert (Hfresh : Sub 1 0 ≤ 5 * second) by (vm_compute; discriminate).
  split; [exact Hfresh|].
  exact (proj1 (main_prints 0 1 2 3 4 5 6 7 8 Hfresh)).
Defined.


Lemma Put_then_Get_witness :
  let c := newTestCache 2 (5 * second) in
  Sub second 0 ≤ ttl_of c []
  ∧ result (Get "key1" second second (state (Put "key1" "value1" [] 0 c)))
    = "value1".
Proof.
  intros c.
  assert (Hfresh : Sub second 0 ≤ ttl_of c []) by (vm_compute; discriminate).
  split; [exact Hfresh|].
  exact (proj1 (Put_then_Get c "key1" "value1" [] 0 second second Hfresh)).
Defined.

Lemma Put_new_key_witness :
  let c := newTestCache 2 (5 * second) in
  consistent c
  ∧ cache c !! "key1" = None
  ∧ cache (state (Put "key1" "value1" [] 0 c)) !! "key1"
    = Some (entry "key1" "value1" 0 (ttl_of c [])).
Proof.
  intros c.
  assert (Hc : consistent c) by apply consistent_new.
  assert (Hk : cache c !! "key1" = None) by reflexivity.
  split_and!; [exact Hc|exact Hk|].
  exact (proj1 (Put_new_key c "key1" "value1" [] 0 Hc Hk)).
Defined.

Lemma Remove_undoes_Put_witness :
  let c := newTestCache 2 (5 * second) in
  consistent c
  ∧ cache c !! "key1" = None
  ∧ Z.of_nat (size (cache c)) < capacity c
  ∧ state (Remove "key1" (state (Put "key1" "value1" [] 0 c))) = c.
Proof.
  intros c.
  assert (Hc : consistent c) by apply consistent_new.
  assert (Hk : cache c !! "key1" = None) by reflexivity.
  assert (Hroom : Z.of_nat (size (cache c)) < capacity c) by reflexivity.
  split_and!; [exact Hc|exact Hk|exact Hroom|].
  exact (proj2 (Remove_undoes_Put c "key1" "value1" [] 0 Hc Hk) Hroom).
Defined.

Lemma touched_is_not_next_victim_witness :
  let c := state (run [OpPut "key1" "value1" [] 0; OpPut "key2" "value2" [] 1]
                    (newTestCache 2 (5 * second))) in
  consistent c
  ∧ cache c !! "key1" = Some (entry "key1" "value1" 0 (5 * second))
  ∧ (2 ≤ size (cache c))%nat
  ∧ head (order (state (Put "key1" "value3" [] 2 c))) = Some "key1".
Proof.
  intros c.
  assert (Hc : consistent c).
  { apply (keeps_run _ (newTestCache 2 (5 * second))), consistent_new. }
  assert (Hk : cache c !! "key1" = Some (entry "key1" "value1" 0 (5 * second)))
    by (vm_compute; reflexivity).
  assert (Hsize : (2 ≤ size (cache c))%nat) by (vm_compute; lia).
  split_and!; [exact Hc|exact Hk|exact Hsize|].
  exact (proj1 (proj2 (touched_is_not_next_victim c "key1" _ 2 2 "value3" []
                         Hc Hk Hsize))).
Defined.

Lemma Put_then_late_Get_witness :
  let c := newTestCache 2 (2 * second) in
  consistent c
  ∧ ttl_of c [] < Sub (3 * second) 0
  ∧ expireMap (listen (notifications (trace
      (Get "key1" (3 * second) (3 * second) (state (Put "key1" "value1" [] 0 c))))))
    !!! "key1" = 1%nat.
Proof.
  intros c.
  assert (Hc : consistent c) by apply consistent_new.
  assert (Hlate : ttl_of c [] < Sub (3 * second) 0) by reflexivity.
  split_and!; [exact Hc|exact Hlate|].
  exact (proj1 (proj2 (Put_then_late_Get c "key1" "value1" [] 0
                         (3 * second) (3 * second) Hc Hlate))).
Defined.

Lemma ttl_override_witness :
  let c := newTestCache 2 (5 * second) in
  consistent c
  ∧ (second < Sub (2 * second) 0 →
       (∃ rest, notifications (trace
          (Get "key1" (2 * second) (2 * second)
             (state (Put "key1" "value1" [second] 0 c))))
          = OnHit "key1" :: OnExpire "key1" :: rest)
       ∧ result (Get "key1" (2 * second) (2 * second)
                   (state (Put "key1" "value1" [second] 0 c)))
         = (if (backingStore c "key1").2 then (backingStore c "key1").1
            else zeroValue)).
Proof.
  intros c.
  assert (Hc : consistent c) by apply consistent_new.
  split; [exact Hc|].
  exact (proj2 (ttl_override c "key1" "value1" second [] 0
                  (2 * second) (2 * second) Hc)).
Defined.

Lemma Gets_within_ttl_witness :
  let c := state (Put "key1" "value1" [] 0 (newTestCache 2 (5 * second))) in
  let item := entry "key1" "value1" 0 (5 * second) in
  let reads := [(3 * second, 3 * second); (6 * second, 6 * second);
                (9 * second, 9 * second)] in
  cache c !! "key1" = Some item
  ∧ within (expiry item) (timestamp item) reads
  ∧ result (Gets "key1" reads c) = ["value1"; "value1"; "value1"].
Proof.
  intros c item reads.
  assert (Hk : cache c !! "key1" = Some item) by (vm_compute; reflexivity).
  assert (Hw : within (expiry item) (timestamp item) reads).
  { vm_compute. split_and!; (discriminate || exact I). }
  split_and!; [exact Hk|exact Hw|].
  exact (proj1 (Gets_within_ttl c "key1" item reads Hk Hw)).
Defined.

Lemma sweep_twice_witness :
  let c := state (Put "key1" "value1" [second] 0 (newTestCache 2 (5 * second))) in
  consistent c
  ∧ NoDup (order c)
  ∧ (∀ k, k ∈ order c ↔ is_Some (cache c !! k))
  ∧ ∀ k, staleAt (5 * second)
           (state (cleanupExpiredEntries (5 * second) (order c) c)) k = false.
Proof.
  intros c.
  assert (Hc : consistent c).
  { apply (keeps_Put (newTestCache 2 (5 * second))), consistent_new. }
  pose proof Hc as (Hnd & Hdom & _).
  split_and!; [exact Hc|exact Hnd|exact Hdom|].
  exact (proj1 (sweep_twice c (5 * second) (order c) Hc Hnd Hdom)).
Defined.

Lemma Close_only_first_witness :
  let c1 := newTestCache 2 (5 * second) in
  let c2 := newTestCache 3 (2 * second) in
  [c1; c2] !! 0%nat = Some c1
  ∧ stopCleanup c1 = false
  ∧ Closes false [c1; c2] [0; 1; 0]%nat
    = Some (true, <[0%nat := stopped c1]> [c1; c2]).
Proof.
  intros c1 c2.
  assert (H0 : [c1; c2] !! 0%nat = Some c1) by reflexivity.
  assert (Hopen : stopCleanup c1 = false) by reflexivity.
  split_and!; [exact H0|exact Hopen|].
  exact (proj1 (Close_only_first [c1; c2] 0 c1 [1; 0]%nat H0 Hopen)).
Defined.

Lemma puts_evict_first_in_first_out_witness :
  let ps := [("key1", "value1", [], 0); ("key2", "value2", [], 1);
             ("key3", "value3", [], 2)] in
  1 ≤ 2
  ∧ NoDup ((λ p : string * string * list Z * Z, p.1.1.1) <$> ps)
  ∧ order (state (run (puts ps) (newTestCache 2 (5 * second))))
    = take (Z.to_nat 2) (reverse ((λ p : string * string * list Z * Z, p.1.1.1) <$> ps)).
Proof.
  intros ps.
  assert (Hcap : 1 ≤ 2) by lia.
  assert (Hnd : NoDup ((λ p : string * string * list Z * Z, p.1.1.1) <$> ps)).
  { apply (bool_decide_unpack _). vm_compute. exact I. }
  split_and!; [exact Hcap|exact Hnd|].
  exact (proj1 (puts_evict_first_in_first_out 2 (5 * second) (Some testStore)
                  (5 * second) ps Hcap Hnd)).
Defined.


Lemma refill_and_eviction_witness :
  let c := newTestCache 2 (5 * second) in
  consistent c
  ∧ backingStore c "keyX" = ("valueX", true)
  ∧ Z.of_nat (size (cache c)) ≤ capacity c
  ∧ (cache c !! "keyX" = None → Z.of_nat (size (cache c)) < capacity c →
       result (Get "keyX" 0 0 c) = "valueX"
       ∧ notifications (trace (Get "keyX" 0 0 c)) = [OnMiss "keyX"]
       ∧ size (cache (state (Get "keyX" 0 0 c))) = S (size (cache c))).
Proof.
  intros c.
  assert (Hc : consistent c) by apply consistent_new.
  assert (Hv : backingStore c "keyX" = ("valueX", true)) by reflexivity.
  assert (Hsize : Z.of_nat (size (cache c)) ≤ capacity c) by (vm_compute; discriminate).
  split_and!; [exact Hc|exact Hv|exact Hsize|].
  exact (proj1 (proj2 (refill_and_eviction c "keyX" 0 0 "valueX" Hc Hv Hsize))).
Defined.

Lemma ttl_edge_cases_witness :
  let c := newTestCache 2 (5 * second) in
  consistent c
  ∧ 0 ≤ 0
  ∧ (0 = 0 → 0 = 0 →
       result (Get "key1" 0 0 (state (Put "key1" "value1" [0] 0 c))) = "value1"
       ∧ notifications (trace (Get "key1" 0 0 (state (Put "key1" "value1" [0] 0 c))))
         = [OnHit "key1"]).
Proof.
  intros c.
  assert (Hc : consistent c) by apply consistent_new.
  assert (Htime : 0 ≤ 0) by lia.
  split_and!; [exact Hc|exact Htime|].
  exact (proj2 (ttl_edge_cases c "key1" "value1" 0 [] 0 0 0 Hc Htime)).
Defined.
